(** * tmpl: the values pipeline

    A shallow embedding of the configuration-resolution code of tmpl
    (packages [env], [source] and [values]) together with the properties
    its specification states about it.

    Go strings and byte slices are sequences of bytes: both are modelled by
    [string] (a list of 8-bit [ascii] characters).  A decoded YAML document
    ([any]) is the inductive type [value]; a [map[string]any] is a
    [gmap string value].  A Go function returning [(T, error)] returns a
    [result T]; the calls it makes to external programs are recorded in an
    event log, so that the order of side effects can be stated. *)

From Stdlib Require Import ZArith String Ascii.
From stdpp Require Import base option list gmap strings sorting.

Set Default Proof Using "Type".
Open Scope string_scope.

(** ** Go runtime: errors and results *)

(** [error] values.  [fmt_Errorf ctx e] is [fmt.Errorf("<ctx>: %w", e)]:
    it wraps [e], and [errors.Is] sees through it. *)
Inductive error : Type :=
| fs_ErrNotExist
| errors_New (msg : string)
| fmt_Errorf (ctx : string) (cause : error).

(** [errors.Is(err, fs.ErrNotExist)] *)
Fixpoint is_not_exist (err : error) : bool :=
  match err with
  | fs_ErrNotExist => true
  | errors_New _ => false
  | fmt_Errorf _ cause => is_not_exist cause
  end.

Inductive result (A : Type) : Type :=
| Ok (a : A)
| Err (err : error).
Arguments Ok {A} a.
Arguments Err {A} err.

Definition is_ok {A} (r : result A) : bool :=
  match r with Ok _ => true | Err _ => false end.

(** [[]byte] *)
Abbreviation bytes := string.

(** ** Package strings *)

Module strings.

(** [strings.HasPrefix] *)
Definition HasPrefix (s prefix : string) : bool :=
  (String.length prefix <=? String.length s)%nat
  && String.eqb (substring 0 (String.length prefix) s) prefix.

(** [strings.HasSuffix] *)
Definition HasSuffix (s suffix : string) : bool :=
  (String.length suffix <=? String.length s)%nat
  && String.eqb
       (substring (String.length s - String.length suffix)
          (String.length suffix) s)
       suffix.

(** [strings.TrimPrefix] *)
Definition TrimPrefix (s prefix : string) : string :=
  if HasPrefix s prefix
  then substring (String.length prefix)
         (String.length s - String.length prefix) s
  else s.

(** [strings.TrimSuffix] *)
Definition TrimSuffix (s suffix : string) : string :=
  if HasSuffix s suffix
  then substring 0 (String.length s - String.length suffix) s
  else s.

End strings.

(** [sort.Strings]: ascending byte-wise lexicographic order ([String.le]
    compares the codes of the bytes, first difference first). *)
Definition sort_Strings (keys : list string) : list string :=
  merge_sort String.le keys.

(** ** Decoded documents *)

(** What [yaml.Unmarshal] produces in an [any]: [nil], [bool], [int],
    [string], [[]any] and [map[string]any]; [VOther] stands for every
    other scalar of the decoder ([float64], [time.Time], ...), given by
    its text: the type switches of the code send them all to their
    default branch. *)
#[warnings="-register-all"]
Inductive value : Type :=
| VNull
| VBool (b : bool)
| VInt (z : Z)
| VOther (repr : string)
| VStr (s : string)
| VList (l : list value)
| VMap (m : gmap string value).

(** The type switch [node.(type)] distinguishes these shapes. *)
Definition is_string (v : value) : bool :=
  match v with VStr _ => true | _ => false end.

Definition is_scalar (v : value) : bool :=
  match v with VList _ | VMap _ => false | _ => true end.

(** Nesting depth, the measure the recursive functions descend on. *)
Fixpoint depth (v : value) : nat :=
  match v with
  | VList l => S (foldr (λ x acc, depth x `max` acc) 0 l)
  | VMap m => S (map_fold (λ _ x acc, depth x `max` acc) 0 m)
  | _ => 0
  end.

(** [keys_all P v]: every mapping key anywhere in [v] satisfies [P]. *)
Fixpoint keys_all (P : string → bool) (v : value) : bool :=
  match v with
  | VList l => forallb (keys_all P) l
  | VMap m => map_fold (λ k x acc, P k && keys_all P x && acc) true m
  | _ => true
  end.

(** [strings.IndexByte], which [strings.Index] is for a separator of one
    byte: the position of the first [c] in [s]. *)
Fixpoint strings_IndexByte (s : string) (c : ascii) : option nat :=
  match s with
  | EmptyString => None
  | String x s' =>
      if Ascii.eqb x c then Some 0 else S <$> strings_IndexByte s' c
  end.

(** [strings.SplitN(s, sep, 2)] for a separator of one byte: [s] cut at
    the first [sep], or [s] alone. *)
Definition strings_SplitN2 (s : string) (sep : ascii) : list string :=
  match strings_IndexByte s sep with
  | Some i => [substring 0 i s; substring (S i) (String.length s - S i) s]
  | None => [s]
  end.

(** ** Package env *)

Module env.

(** [Resolver]: the variable table built by [NewResolver]. *)
Record Resolver : Type := { env : gmap string string }.

(** The character class [[A-Z0-9_]] of [envPattern]. *)
Definition is_name_char (c : ascii) : bool :=
  let n := nat_of_ascii c in
  ((65 <=? n) && (n <=? 90) || (48 <=? n) && (n <=? 57) || (n =? 95))%nat.

(** The longest run of name characters at the head of [s], and what
    follows it. *)
Fixpoint span_name (s : string) : string * string :=
  match s with
  | String c s' =>
      if is_name_char c
      then let '(name, rest) := span_name s' in (String c name, rest)
      else ("", s)
  | EmptyString => ("", "")
  end.

(** [envPattern] = [\$\{([A-Z0-9_]+)\}] anchored at the head of [s]:
    the captured group and the text after the match. *)
Definition match_here (s : string) : option (string * string) :=
  match s with
  | String c1 (String c2 s') =>
      if Ascii.eqb c1 "$" && Ascii.eqb c2 "{" then
        match span_name s' with
        | (name, String c3 rest) =>
            if negb (String.eqb name "") && Ascii.eqb c3 "}"
            then Some (name, rest)
            else None
        | _ => None
        end
      else None
  | _ => None
  end.

#[global] Arguments match_here : simpl never.

(** The text of a match whose group is [name]. *)
Definition placeholder (name : string) : string := "${" ++ name ++ "}".

(** The callback of [Expand]: [FindSubmatch] on the match gives the
    group; a name in the table is replaced, any other match is kept. *)
Definition expand_match (r : Resolver) (m : bytes) : bytes :=
  match match_here m with
  | Some (key, _) =>
      match env r !! key with
      | Some val => val
      | None => m
      end
  | None => m
  end.

(** [envPattern.ReplaceAllFunc]: leftmost matches, left to right, none
    overlapping.  [fuel] bounds the number of steps; the length of the
    input is always enough. *)
Fixpoint replace_all (repl : bytes → bytes) (fuel : nat) (s : bytes) : bytes :=
  match fuel with
  | O => s
  | S fuel' =>
      match match_here s with
      | Some (name, rest) =>
          repl (placeholder name) ++ replace_all repl fuel' rest
      | None =>
          match s with
          | EmptyString => EmptyString
          | String c s' => String c (replace_all repl fuel' s')
          end
      end
  end.

(** [Resolver.Expand] *)
Definition Expand (r : Resolver) (data : bytes) : bytes * option error :=
  (replace_all (expand_match r) (String.length data) data, None).

(** [Resolver.ExpandString] *)
Definition ExpandString (r : Resolver) (input : string) : result string :=
  match Expand r input with
  | (_, Some err) => Err err
  | (data, None) => Ok data
  end.

(** Whether [envPattern] matches somewhere in [s]. *)
Fixpoint has_placeholder (s : string) : bool :=
  match match_here s with
  | Some _ => true
  | None =>
      match s with
      | EmptyString => false
      | String _ s' => has_placeholder s'
      end
  end.

(** A name the pattern's group can capture. *)
Fixpoint all_name_chars (s : string) : bool :=
  match s with
  | String c s' => is_name_char c && all_name_chars s'
  | EmptyString => true
  end.

Definition valid_name (name : string) : bool :=
  negb (String.eqb name "") && all_name_chars name.

(** The body of the loop of [ExpandMap]: the value left at a key whose
    value was [val].  Strings are replaced by their expansion; a nested
    mapping is expanded by the recursive call; in a list only string
    items and mapping items are touched.  The mutation of the shared
    maps and slices is rendered by returning the tree they hold
    afterwards; [Expand] returns no error, so none of the error
    branches is taken and the iteration order of the map is immaterial. *)
Fixpoint expand_entry (r : Resolver) (val : value) : value :=
  match val with
  | VStr typed => VStr (Expand r typed).1
  | VMap typed => VMap (expand_entry r <$> typed)
  | VList typed =>
      VList
        (map
           (λ item,
              match item with
              | VStr str => VStr (Expand r str).1
              | VMap nested => VMap (expand_entry r <$> nested)
              | _ => item
              end)
           typed)
  | _ => val
  end.

(** [Resolver.ExpandMap]: the map after the call, and the error returned. *)
Definition ExpandMap (r : Resolver) (values : gmap string value)
  : gmap string value * option error :=
  (expand_entry r <$> values, None).

(** What the documentation of [ExpandMap] describes, stated for
    comparison: expansion of every string leaf, at any depth of
    mappings and lists. *)
Fixpoint expand_all (r : Resolver) (v : value) : value :=
  match v with
  | VStr s => VStr (Expand r s).1
  | VList l => VList (map (expand_all r) l)
  | VMap m => VMap (expand_all r <$> m)
  | _ => v
  end.

(** [Config] *)
Record Config : Type := { Files : list string }.

(** What [NewResolver] obtains from outside: [os.Environ()]; for a path,
    the error of [os.Open] or the lines [bufio.Scanner] yields in order
    with the final [scanner.Err()]; and [strings.TrimSpace]. *)
Record Host : Type :=
  { os_Environ : list string;
    scan_file : string → result (list string * option error);
    strings_TrimSpace : string → string }.

(** The errors of [loadEnvFile]: that of [os.Open], the
    [invalid env entry %q on line %d] it builds, that of the scanner. *)
Inductive load_error : Type :=
| OpenFailed (err : error)
| InvalidEntry (line : string) (lineNo : nat)
| ScanFailed (err : error).

(** [fmt.Errorf("load env file %s: %w", file, err)] *)
Inductive resolver_error : Type :=
| LoadEnvFileError (file : string) (cause : load_error).

(** The first statements of the loop body of [loadEnvFile]: the line
    without its comment and surrounding white space. *)
Definition entry_text (h : Host) (line : string) : string :=
  let line :=
    match strings_IndexByte line "#" with
    | Some idx => substring 0 idx line
    | None => line
    end in
  strings_TrimSpace h line.

(** The loop of [loadEnvFile] over the scanned lines: the map [target]
    as the loop leaves it, and the error returned from inside the loop. *)
Fixpoint load_lines (h : Host) (target : gmap string string) (lineNo : nat)
    (lines : list string) : gmap string string * option load_error :=
  match lines with
  | [] => (target, None)
  | raw :: lines' =>
      let lineNo := S lineNo in
      let line := entry_text h raw in
      if String.eqb line "" then load_lines h target lineNo lines'
      else
        match strings_SplitN2 line "=" with
        | [key; val] =>
            load_lines h
              (<[strings_TrimSpace h key := strings_TrimSpace h val]> target)
              lineNo lines'
        | _ => (target, Some (InvalidEntry line lineNo))
        end
  end.

(** [loadEnvFile]: the map [target] after the call, and the error. *)
Definition loadEnvFile (h : Host) (target : gmap string string) (path : string)
  : gmap string string * option load_error :=
  match scan_file h path with
  | Err err => (target, Some (OpenFailed err))
  | Ok (lines, scanErr) =>
      match load_lines h target 0 lines with
      | (target', Some err) => (target', Some err)
      | (target', None) =>
          match scanErr with
          | Some err => (target', Some (ScanFailed err))
          | None => (target', None)
          end
      end
  end.

(** The first loop of [NewResolver]: the map built from [os.Environ()]. *)
Definition environ_map (environ : list string) : gmap string string :=
  foldl
    (λ envMap kv,
       match strings_SplitN2 kv "=" with
       | [key; val] => <[key := val]> envMap
       | _ => envMap
       end)
    ∅ environ.

(** The second loop of [NewResolver], over [cfg.Files]. *)
Fixpoint load_files (h : Host) (envMap : gmap string string) (files : list string)
  : gmap string string + resolver_error :=
  match files with
  | [] => inl envMap
  | file :: files' =>
      match loadEnvFile h envMap file with
      | (_, Some err) => inr (LoadEnvFileError file err)
      | (envMap', None) => load_files h envMap' files'
      end
  end.

(** [NewResolver] *)
Definition NewResolver (h : Host) (cfg : Config) : Resolver + resolver_error :=
  match load_files h (environ_map (os_Environ h)) (Files cfg) with
  | inl envMap => inl {| env := envMap |}
  | inr err => inr err
  end.

(** [ExpandBytes] *)
Definition ExpandBytes (h : Host) (data : bytes) (files : list string)
  : bytes * option (resolver_error + error) :=
  match NewResolver h {| Files := files |} with
  | inr err => ("", Some (inl err))
  | inl resolver =>
      let '(out, err) := Expand resolver data in (out, inr <$> err)
  end.

End env.

(** ** External collaborators *)

(** [http.BasicAuth] *)
Record BasicAuth : Type := { Username : string; Password : string }.

(** [git.CheckoutOptions], as [gitSource.Fetch] fills it. *)
Inductive CheckoutOptions : Type :=
| CheckoutBranch (name : string)
| CheckoutHash (hex : string).

(** [url.URL], the fields the sources read. *)
Record URL : Type :=
  { url_Scheme : string; url_Host : string; url_Path : string;
    url_RawQuery : string; url_Fragment : string }.

(** Calls to programs and services outside the process, in the order
    they are made. *)
Inductive event : Type :=
| EvClone (url : string) (auth : option BasicAuth)
| EvDecryptFile (path : string).

(** Everything the pipeline obtains from outside: the operating system,
    the standard library, the YAML decoder, the remote backends and the
    [sops] adapter. *)
Record World : Type :=
  { os_ReadFile : string → result bytes;
    os_Getenv : string → string;
    os_TempDir : string;
    uuid_NewString : string;
    filepath_Join : string → string → string;
    filepath_Dir : string → string;
    filepath_IsAbs : string → bool;
    bytes_TrimSpace : bytes → bytes;
    url_Parse : string → result URL;
    url_String : URL → string;
    (* yaml.Unmarshal into a [map[string]any{}] and into an [any] *)
    yaml_Unmarshal_map : bytes → result (gmap string value);
    yaml_Unmarshal_any : bytes → result value;
    (* sops.Decryptor.DecryptFile *)
    sops_DecryptFile : string → result bytes;
    (* go-git *)
    Repository : Type;
    Worktree : Type;
    git_PlainClone : string → string → option BasicAuth → result Repository;
    repo_Worktree : Repository → result Worktree;
    wt_Checkout : Worktree → CheckoutOptions → option error;
    (* the object-store and registry clients: what [Fetch] returns *)
    s3_GetObject : string → string → bytes * option error;
    oci_FetchBlob : string → bytes * option error }.

(** A computation that returns a [result] and logs the external calls it
    made. *)
Definition M (A : Type) : Type := result A * list event.

Definition ret {A} (a : A) : M A := (Ok a, []).
Definition fail {A} (err : error) : M A := (Err err, []).
Definition bind {A B} (c : M A) (k : A → M B) : M B :=
  match c with
  | (Ok a, log) => let '(r, log') := k a in (r, (log ++ log')%list)
  | (Err err, log) => (Err err, log)
  end.

Notation "'let*' x ':=' c 'in' k" := (bind c (λ x, k))
  (at level 10, x name, c at level 100, k at level 200, only parsing).

(** Run the computations of a list from left to right, stopping at the
    first error. *)
Fixpoint sequence {A} (cs : list (M A)) : M (list A) :=
  match cs with
  | [] => ret []
  | c :: cs' => let* x := c in let* xs := sequence cs' in ret (x :: xs)
  end.

(** ** Package source *)

Module source.

Definition SchemeLocal := "local".
Definition SchemeGit := "git".
Definition SchemeS3 := "s3".
Definition SchemeOCI := "oci".

(** [ParseScheme] *)
Definition ParseScheme (path : string) : string :=
  if strings.HasPrefix path "git+" then SchemeGit
  else if strings.HasPrefix path "s3://" then SchemeS3
  else if strings.HasPrefix path "oci://" then SchemeOCI
  else SchemeLocal.

(** The implementations of the interface [Source]. *)
Inductive Source : Type :=
| gitSource (url : URL) (subdir ref path : string)
| s3Source (bucket key : string)
| ociSource (ref : string).

Section with_world.
Context (w : World).

(** [newGitSource] *)
Definition newGitSource (raw : string) : result Source :=
  let trimmed := strings.TrimPrefix raw "git+" in
  match url_Parse w trimmed with
  | Err err => Err (fmt_Errorf ("parse git source " ++ raw) err)
  | Ok u =>
      let ref := url_Fragment u in
      let subdir := url_Path u in
      let u' := {| url_Scheme := url_Scheme u; url_Host := url_Host u;
                   url_Path := ""; url_RawQuery := url_RawQuery u;
                   url_Fragment := "" |} in
      Ok (gitSource u' (strings.TrimPrefix subdir "/") ref raw)
  end.

(** [newS3Source] *)
Definition newS3Source (raw : string) : result Source :=
  match url_Parse w raw with
  | Err err => Err err
  | Ok u => Ok (s3Source (url_Host u) (strings.TrimPrefix (url_Path u) "/"))
  end.

(** [newOCISource] *)
Definition newOCISource (raw : string) : result Source :=
  Ok (ociSource (strings.TrimPrefix raw "oci://")).

(** [Factory.New] *)
Definition Factory_New (raw : string) : result Source :=
  if strings.HasPrefix raw "s3://" then newS3Source raw
  else if strings.HasPrefix raw "oci://" then newOCISource raw
  else if strings.HasPrefix raw "git+" then newGitSource raw
  else Err (errors_New ("unsupported source " ++ raw)).

(** [basicAuthFromEnv] *)
Definition basicAuthFromEnv : option BasicAuth :=
  let user := os_Getenv w "TMPL_GIT_USERNAME" in
  let pass := os_Getenv w "TMPL_GIT_PASSWORD" in
  if String.eqb user "" && String.eqb pass "" then None
  else Some {| Username := user; Password := pass |}.

(** The first part of [gitSource.Fetch]: the anonymous clone and, when
    it fails and the environment gives credentials, the second clone.
    Returns the repository or the error left in [err], and logs every
    clone attempted. *)
Definition git_clone (tempDir url : string) : M (Repository w) :=
  match git_PlainClone w tempDir url None with
  | Ok repo => (Ok repo, [EvClone url None])
  | Err err =>
      match basicAuthFromEnv with
      | Some auth =>
          (git_PlainClone w tempDir url (Some auth),
           [EvClone url None; EvClone url (Some auth)])
      | None => (Err err, [EvClone url None])
      end
  end.

(** The checkout of [gitSource.Fetch]: the ref as a branch, then as a
    hash. *)
Definition git_checkout (repo : Repository w) (ref : string) : option error :=
  if String.eqb ref "" then None
  else
    match repo_Worktree w repo with
    | Err err => Some err
    | Ok wt =>
        match wt_Checkout w wt (CheckoutBranch ("refs/heads/" ++ ref)) with
        | None => None
        | Some _ =>
            match wt_Checkout w wt (CheckoutHash ref) with
            | None => None
            | Some err => Some (fmt_Errorf ("checkout " ++ ref) err)
            end
        end
    end.

(** [gitSource.Fetch]: the data and error it returns, and the clones
    it attempted. *)
Definition gitSource_Fetch (url : URL) (subdir ref path : string)
  : (bytes * option error) * list event :=
  let tempDir := filepath_Join w (os_TempDir w) ("tmpl-git-" ++ uuid_NewString w) in
  match git_clone tempDir (url_String w url) with
  | (Err err, log) =>
      (("", Some (fmt_Errorf ("clone git source " ++ path) err)), log)
  | (Ok repo, log) =>
      match git_checkout repo ref with
      | Some err => (("", Some err), log)
      | None =>
          let target := filepath_Join w tempDir subdir in
          match os_ReadFile w target with
          | Err err =>
              (("", Some (fmt_Errorf ("read git file " ++ target) err)), log)
          | Ok data => ((data, None), log)
          end
      end
  end.

(** [Source.Fetch], by implementation. *)
Definition Fetch (src : Source) : (bytes * option error) * list event :=
  match src with
  | gitSource url subdir ref path => gitSource_Fetch url subdir ref path
  | s3Source bucket key => (s3_GetObject w bucket key, [])
  | ociSource ref => (oci_FetchBlob w ref, [])
  end.

End with_world.

End source.

(** ** Package values *)

Module values.

(** The fields of [Loader] the pipeline reads: the resolver; the
    decryptor and the source factory act through the [World]. *)
Record Loader : Type := { env : env.Resolver }.

(** Modelled from the spec: [mergo.Merge] with [mergo.WithOverride], a
    dependency whose code is not part of the sources.  Section 4.6: deep
    merge with override; scalar and list values of the incoming layer
    replace the value at the same path, mappings merge key by key, a key
    of one side only is kept, and on a type mismatch the incoming layer
    wins.  [merge_value acc incoming] is the value left at a key both
    layers have. *)
Fixpoint merge_value (acc incoming : value) : value :=
  match acc, incoming with
  | VMap a, VMap b => VMap (union_with (λ x y, Some (merge_value x y)) a b)
  | _, _ => incoming
  end.

(** Modelled from the spec: the map [mergo.Merge] leaves in the
    accumulator (see [merge_value]). *)
Definition merge (acc incoming : gmap string value) : gmap string value :=
  union_with (λ x y, Some (merge_value x y)) acc incoming.

Section with_world.
Context (w : World) (l : Loader).

(** The path [decryptValue] hands to [DecryptFile] for the reference
    [ref]. *)
Definition secret_path (ref baseDir : string) : string :=
  if negb (filepath_IsAbs w ref) && negb (String.eqb baseDir "")
  then filepath_Join w baseDir ref
  else ref.

(** What [decryptValue] makes of the plaintext [data]: the empty string
    when only white space is left, the decoded document when the text
    decodes as YAML, the trimmed text otherwise. *)
Definition secret_value (data : bytes) : value :=
  let trimmed := bytes_TrimSpace w data in
  if (String.length trimmed =? 0)%nat then VStr ""
  else
    match yaml_Unmarshal_any w trimmed with
    | Ok parsed => parsed
    | Err _ => VStr trimmed
    end.

(** [Loader.decryptValue] *)
Definition decryptValue (ref baseDir : string) : M value :=
  let path := secret_path ref baseDir in
  match sops_DecryptFile w path with
  | Err err => (Err (fmt_Errorf ("decrypt " ++ ref) err), [EvDecryptFile path])
  | Ok data => (Ok (secret_value data), [EvDecryptFile path])
  end.

(** The loop over the sorted keys in [decryptValues]: [sub] holds, for
    each key of the map [v], the recursive call on [v[key]] (a missing
    key reads as [nil], which is returned as it is); [result] is the
    map being filled. *)
Fixpoint decrypt_keys (sub : gmap string (M value)) (keys : list string)
    (result : gmap string value) : M (gmap string value) :=
  match keys with
  | [] => ret result
  | key :: keys' =>
      let* processedValue := default (ret VNull) (sub !! key) in
      let newKey := strings.TrimSuffix key ".enc" in
      decrypt_keys sub keys' (<[newKey := processedValue]> result)
  end.

(** [Loader.decryptValues] *)
Fixpoint decryptValues (node : value) (baseDir : string) : M value :=
  match node with
  | VMap v =>
      let keys := sort_Strings (map fst (map_to_list v)) in
      let* result := decrypt_keys ((λ x, decryptValues x baseDir) <$> v) keys ∅ in
      ret (VMap result)
  | VList v =>
      let* result := sequence (map (λ x, decryptValues x baseDir) v) in
      ret (VList result)
  | VStr v =>
      if negb (strings.HasSuffix v ".enc") then ret (VStr v)
      else decryptValue v baseDir
  | _ => ret node
  end.

(** [Loader.readValuesFile].  In the branch of a remote source the
    error of [Fetch] is assigned to the [err] declared by
    [src, err := l.sourceFactory.New(path)], local to that branch; the
    [err] tested after the branch is the outer one, which that branch
    never assigns. *)
Definition readValuesFile (path : string) : M (gmap string value) :=
  if String.eqb path "" then fail (errors_New "values file path is empty")
  else
    let scheme := source.ParseScheme path in
    (* outcome of the if/else: an early return, or data, err, baseDir *)
    let branch : result (bytes * option error * string) * list event :=
      if String.eqb scheme source.SchemeLocal then
        match os_ReadFile w path with
        | Ok data => (Ok (data, None, filepath_Dir w path), [])
        | Err err => (Ok ("", Some err, filepath_Dir w path), [])
        end
      else
        match source.Factory_New w path with
        | Err err => (Err err, [])
        | Ok src =>
            let '((data, _), log) := source.Fetch w src in
            (Ok (data, None, ""), log)
        end in
    let* fetched := branch in
    let '(data, err, baseDir) := fetched in
    match err with
    | Some err =>
        if is_not_exist err then fail err
        else fail (fmt_Errorf ("read values file " ++ path) err)
    | None =>
        match env.Expand (env l) data with
        | (_, Some err) =>
            fail (fmt_Errorf ("expand environment in " ++ path) err)
        | (expanded, None) =>
            match yaml_Unmarshal_map w expanded with
            | Err err => fail (fmt_Errorf ("decode yaml " ++ path) err)
            | Ok decoded =>
                match decryptValues (VMap decoded) baseDir with
                | (Err err, log) =>
                    (Err (fmt_Errorf ("decrypt secrets in " ++ path) err), log)
                | (Ok (VMap result), log) => (Ok result, log)
                | (Ok _, log) =>
                    (Err (errors_New
                            ("values file " ++ path ++ " must decode to an object")),
                     log)
                end
            end
        end
    end.

(** The loop of [Load] over the extra files ([merge] returns no error,
    so the branch that wraps the error of [mergo.Merge] has no
    counterpart). *)
Fixpoint load_extra (baseValues : gmap string value) (extraFiles : list string)
  : M (gmap string value) :=
  match extraFiles with
  | [] => ret baseValues
  | file :: extraFiles' =>
      let* data := readValuesFile file in
      load_extra (merge baseValues data) extraFiles'
  end.

(** [Loader.Load] *)
Definition Load (chartPath : string) (extraFiles : list string)
  : M (gmap string value) :=
  let chartPath := if String.eqb chartPath "" then "." else chartPath in
  match readValuesFile (filepath_Join w chartPath "values.yaml") with
  | (Err err, log) =>
      if negb (is_not_exist err) then (Err err, log)
      else
        let '(r, log') := load_extra ∅ extraFiles in
        (r, (log ++ log')%list)
  | (Ok baseValues, log) =>
      let '(r, log') := load_extra baseValues extraFiles in
      (r, (log ++ log')%list)
  end.

End with_world.

End values.

(** ** Vocabulary of the statements *)

(** [string_leaf s node]: the string [s] is a value somewhere in [node],
    under any key of a mapping or at any index of a list. *)
Inductive string_leaf (s : string) : value → Prop :=
| leaf_here : string_leaf s (VStr s)
| leaf_item (l : list value) (x : value) :
    x ∈ l → string_leaf s x → string_leaf s (VList l)
| leaf_entry (m : gmap string value) (key : string) (x : value) :
    m !! key = Some x → string_leaf s x → string_leaf s (VMap m).

(** The string values of [node] that end in [.enc], in the order
    [decryptValues] visits them: list items by index, map entries by
    sorted key. *)
Fixpoint enc_refs (node : value) : list string :=
  match node with
  | VStr s => if strings.HasSuffix s ".enc" then [s] else []
  | VList l => mjoin (enc_refs <$> l)
  | VMap m =>
      mjoin
        ((λ key, default [] ((enc_refs <$> m) !! key))
           <$> sort_Strings (map fst (map_to_list m)))
  | _ => []
  end.

(** The value of a successful result ([nil] for a failed one). *)
Definition ok_value (r : result value) : value :=
  match r with Ok v => v | Err _ => VNull end.

(** A key that does not carry the marker [.enc]. *)
Definition unmarked (key : string) : bool := negb (strings.HasSuffix key ".enc").

(** A key that does not carry the marker twice. *)
Definition not_twice_marked (key : string) : bool :=
  negb (strings.HasSuffix key ".enc.enc").

(** The keys of a map in the order of [sort.Strings]. *)
Abbreviation sorted_keys m := (sort_Strings (map fst (map_to_list m))).

(** The map obtained from [acc] by the assignments
    [acc[f key] = g key], for the keys of a list in order. *)
Definition fill {V} (f : string → string) (g : string → V)
    (keys : list string) (acc : gmap string V) : gmap string V :=
  foldl (λ acc key, <[f key := g key]> acc) acc keys.

(** [v[key]] and the recursive call on it, in [decrypt_keys]. *)
Definition sub_at (sub : gmap string (M value)) (key : string) : M value :=
  default (ret VNull) (sub !! key).

(** [logs_as c calls]: the computation [c] logs a prefix of [calls], and
    all of it when it succeeds. *)
Definition logs_as {A} (c : M A) (calls : list event) : Prop :=
  c.2 `prefix_of` calls ∧ (is_ok c.1 = true → c.2 = calls).

(** ** Concrete worlds, for evaluating the code *)

Module example.

Definition is_space (c : ascii) : bool :=
  let n := nat_of_ascii c in ((9 <=? n) && (n <=? 13) || (n =? 32))%nat.

Fixpoint trim_left (s : string) : string :=
  match s with
  | String c s' => if is_space c then trim_left s' else s
  | EmptyString => EmptyString
  end.

Fixpoint trim_right (s : string) : string :=
  match s with
  | String c s' =>
      match trim_right s' with
      | EmptyString => if is_space c then EmptyString else String c EmptyString
      | t => String c t
      end
  | EmptyString => EmptyString
  end.

(** [bytes.TrimSpace] on ASCII text. *)
Definition TrimSpace (s : bytes) : bytes := trim_right (trim_left s).

(** [filepath.Join] and [filepath.Dir] on clean slash-separated paths. *)
Definition Join (a b : string) : string :=
  if String.eqb a "" then b
  else if String.eqb b "" then a
  else if String.eqb a "." then b
  else a ++ "/" ++ b.

Fixpoint dir_aux (s : string) : option string :=
  match s with
  | String c s' =>
      match dir_aux s' with
      | Some d => Some (String c d)
      | None => if Ascii.eqb c "/" then Some EmptyString else None
      end
  | EmptyString => None
  end.

Definition Dir (path : string) : string :=
  match dir_aux path with
  | Some EmptyString => "/"
  | Some d => d
  | None => "."
  end.

Definition missing {A} (what : string) : result A := Err (errors_New what).

(** A world given by tables: the files on disk, what [sops] decrypts
    each path to, what the YAML decoder makes of each text, the process
    environment, and the objects of the store.  The only URLs that
    parse are those of the bucket [bucket]; every git clone fails; the
    registry has nothing. *)
Definition table_world
    (files : gmap string bytes) (secrets : gmap string bytes)
    (docs : gmap string value) (environ : gmap string string)
    (objects : gmap string bytes) : World :=
  {| os_ReadFile path :=
      match files !! path with
      | Some data => Ok data
      | None => Err (fmt_Errorf ("open " ++ path) fs_ErrNotExist)
      end;
    os_Getenv name := default "" (environ !! name);
    os_TempDir := "/tmp";
    uuid_NewString := "0000";
    filepath_Join := Join;
    filepath_Dir := Dir;
    filepath_IsAbs path := strings.HasPrefix path "/";
    bytes_TrimSpace := TrimSpace;
    url_Parse raw :=
      if strings.HasPrefix raw "s3://bucket/" then
        Ok {| url_Scheme := "s3"; url_Host := "bucket";
              url_Path := strings.TrimPrefix raw "s3://bucket";
              url_RawQuery := ""; url_Fragment := "" |}
      else missing ("parse " ++ raw);
    url_String u := url_Scheme u ++ "://" ++ url_Host u;
    yaml_Unmarshal_map text :=
      if String.eqb text "" then Ok ∅
      else
        match docs !! text with
        | Some (VMap m) => Ok m
        | Some _ => missing "yaml: cannot unmarshal into map"
        | None => missing "yaml: syntax error"
        end;
    yaml_Unmarshal_any text :=
      match docs !! text with
      | Some v => Ok v
      | None => missing "yaml: syntax error"
      end;
    sops_DecryptFile path :=
      match secrets !! path with
      | Some data => Ok data
      | None => missing ("sops decrypt file " ++ path)
      end;
    Repository := unit;
    Worktree := unit;
    git_PlainClone _ _ _ := missing "authentication required";
    repo_Worktree _ := Ok tt;
    wt_Checkout _ _ := None;
    s3_GetObject bucket key :=
      match objects !! (bucket ++ "/" ++ key) with
      | Some data => (data, None)
      | None => ("", Some (errors_New "NoSuchKey"))
      end;
    oci_FetchBlob _ := ("", Some (errors_New "not found")) |}.

Definition no_env : env.Resolver := {| env.env := ∅ |}.
Definition loader : values.Loader := {| values.env := no_env |}.

(** One secret, [secrets/token.enc], whose plaintext is [secret123]. *)
Definition token_world : World :=
  table_world ∅ {[ "secrets/token.enc" := "secret123
" ]}
    {[ "secret123" := VStr "secret123" ]} ∅ ∅.

(** The environment gives a user name and no password; every clone
    fails. *)
Definition user_only_world : World :=
  table_world ∅ ∅ ∅ {[ "TMPL_GIT_USERNAME" := "bot" ]} ∅.

Definition repo_url : URL :=
  {| url_Scheme := "https"; url_Host := "git.example.com"; url_Path := "";
     url_RawQuery := ""; url_Fragment := "" |}.

(** The resolver knows [FOO]. *)
Definition foo_env : env.Resolver := {| env.env := {[ "FOO" := "bar" ]} |}.

(** A chart whose [values.yaml] holds [a: 1]; the object store is empty. *)
Definition chart_world : World :=
  table_world {[ "chart/values.yaml" := "a: 1" ]} ∅
    {[ "a: 1" := VMap {[ "a" := VInt 1 ]} ]} ∅ ∅.

(** No [values.yaml] in the chart; [extra.yaml] holds [a: 1]. *)
Definition extra_only_world : World :=
  table_world {[ "extra.yaml" := "a: 1" ]} ∅
    {[ "a: 1" := VMap {[ "a" := VInt 1 ]} ]} ∅ ∅.

(** A secret stored under a name that does not end in [.enc]. *)
Definition vault_world : World :=
  table_world ∅ {[ "vault/token" := "secret123" ]}
    {[ "secret123" := VStr "secret123" ]} ∅ ∅.

(** A secret whose plaintext is a mapping with a marked key. *)
Definition nested_world : World :=
  table_world ∅ {[ "db.enc" := "pass.enc: x" ]}
    {[ "pass.enc: x" := VMap {[ "pass.enc" := VStr "x" ]} ]} ∅ ∅.

End example.

(** The authenticated clones among the logged calls. *)
Definition auth_clones (log : list event) : list BasicAuth :=
  omap (λ ev, match ev with EvClone _ auth => auth | _ => None end) log.

(** ** Vocabulary of the further statements *)

(** A tree in which no item of a list is itself a list. *)
Fixpoint no_list_in_list (v : value) : bool :=
  match v with
  | VList l =>
      forallb
        (λ item, match item with VList _ => false | _ => no_list_in_list item end)
        l
  | VMap m => map_fold (λ _ x acc, no_list_in_list x && acc) true m
  | _ => true
  end.

(** The assignment a line of an env file makes, if it makes one. *)
Definition line_entry (h : env.Host) (raw : string) : option (string * string) :=
  let line := env.entry_text h raw in
  if String.eqb line "" then None
  else
    match strings_SplitN2 line "=" with
    | [key; val] => Some (env.strings_TrimSpace h key, env.strings_TrimSpace h val)
    | _ => None
    end.

(** A line [loadEnvFile] accepts: nothing is left of it once the comment
    and the white space are removed, or what is left has an [=]. *)
Definition line_ok (h : env.Host) (raw : string) : bool :=
  let line := env.entry_text h raw in
  String.eqb line ""
  || match strings_IndexByte line "=" with Some _ => true | None => false end.

(** The assignment an entry of [os.Environ()] makes, if it makes one. *)
Definition environ_entry (kv : string) : option (string * string) :=
  match strings_SplitN2 kv "=" with
  | [key; val] => Some (key, val)
  | _ => None
  end.

(** The lines the scanner yields for a file (none when it does not open). *)
Definition file_lines (h : env.Host) (file : string) : list string :=
  match env.scan_file h file with
  | Ok (lines, _) => lines
  | Err _ => []
  end.

(** Whether [loadEnvFile] accepts the file: the error it returns does
    not depend on the map it is given. *)
Definition file_loads (h : env.Host) (file : string) : bool :=
  match (env.loadEnvFile h ∅ file).2 with None => true | Some _ => false end.

(** The map after the assignments [entries], made in order. *)
Definition assign_all (target : gmap string string)
    (entries : list (string * string)) : gmap string string :=
  foldl (λ t kv, <[kv.1 := kv.2]> t) target entries.

(** The value of the last assignment to [key] in a sequence of
    assignments. *)
Definition last_binding (key : string) (entries : list (string * string))
  : option string :=
  snd <$> last (filter (λ kv, kv.1 = key) entries).

(** [runs_as w baseDir c refs]: the computation [c] behaves as a
    left-to-right decryption of the references [refs]: it succeeds
    when every reference decrypts, having called [DecryptFile] on each;
    otherwise it stops at the first reference that does not decrypt,
    having called [DecryptFile] on the references up to that one, and
    returns its error. *)
Definition runs_as {A} (w : World) (baseDir : string) (c : M A)
    (refs : list string) : Prop :=
  let call ref := EvDecryptFile (values.secret_path w ref baseDir) in
  let decrypts ref :=
    is_ok (sops_DecryptFile w (values.secret_path w ref baseDir)) = true in
  match c.1 with
  | Ok _ => Forall decrypts refs ∧ c.2 = call <$> refs
  | Err err =>
      ∃ refs1 ref refs2 cause,
        refs = (refs1 ++ ref :: refs2)%list
        ∧ Forall decrypts refs1
        ∧ sops_DecryptFile w (values.secret_path w ref baseDir) = Err cause
        ∧ err = fmt_Errorf ("decrypt " ++ ref) cause
        ∧ c.2 = call <$> (refs1 ++ [ref])%list
  end.

(** The path of the base file [Load] reads for [chartPath]. *)
Definition base_path (w : World) (chartPath : string) : string :=
  filepath_Join w (if String.eqb chartPath "" then "." else chartPath)
    "values.yaml".

(** The tree [Load] starts its loop from: that of the base file, the
    empty one when reading it fails with an error that wraps
    [fs.ErrNotExist]; none when it fails otherwise. *)
Definition base_values (w : World) (l : values.Loader) (chartPath : string)
  : option (gmap string value) :=
  match (values.readValuesFile w l (base_path w chartPath)).1 with
  | Ok baseValues => Some baseValues
  | Err err => if is_not_exist err then Some ∅ else None
  end.

(** The world [w] with another decryptor. *)
Definition with_decryptor (w : World) (decrypt : string → result bytes) : World :=
  {| os_ReadFile := os_ReadFile w;
     os_Getenv := os_Getenv w;
     os_TempDir := os_TempDir w;
     uuid_NewString := uuid_NewString w;
     filepath_Join := filepath_Join w;
     filepath_Dir := filepath_Dir w;
     filepath_IsAbs := filepath_IsAbs w;
     bytes_TrimSpace := bytes_TrimSpace w;
     url_Parse := url_Parse w;
     url_String := url_String w;
     yaml_Unmarshal_map := yaml_Unmarshal_map w;
     yaml_Unmarshal_any := yaml_Unmarshal_any w;
     sops_DecryptFile := decrypt;
     Repository := Repository w;
     Worktree := Worktree w;
     git_PlainClone := git_PlainClone w;
     repo_Worktree := repo_Worktree w;
     wt_Checkout := wt_Checkout w;
     s3_GetObject := s3_GetObject w;
     oci_FetchBlob := oci_FetchBlob w |}.

(** Concrete hosts and worlds for the further statements. *)
Module fixture.

(** A process environment and two env files: [a.env] is well formed,
    the second line of [bad.env] has no [=]. *)
Definition host : env.Host :=
  {| env.os_Environ := ["HOME=/root"; "FOO=process"; "NOVALUE"];
     env.scan_file path :=
       if String.eqb path "a.env" then
         Ok (["# settings"; ""; "FOO = file # trailing"; "URL=http://h/?a=b"],
             None)
       else if String.eqb path "b.env" then Ok (["FOO=last"], None)
       else if String.eqb path "bad.env" then Ok (["FOO=1"; "oops"; "BAR=2"], None)
       else Err (fmt_Errorf ("open " ++ path) fs_ErrNotExist);
     env.strings_TrimSpace := example.TrimSpace |}.

(** The chart's [values.yaml] refers to a secret; the decryptor cannot
    start its program, and says so with an error that wraps
    [fs.ErrNotExist]. *)
Definition lost_tool_world : World :=
  with_decryptor
    (example.table_world
       {[ "chart/values.yaml" := "token: token.enc"; "extra.yaml" := "a: 1" ]} ∅
       {[ "token: token.enc" := VMap {[ "token" := VStr "token.enc" ]};
          "a: 1" := VMap {[ "a" := VInt 1 ]} ]} ∅ ∅)
    (λ path, Err (fmt_Errorf ("fork/exec sops for " ++ path) fs_ErrNotExist)).

(** Two extra files: [one.yaml] holds [a: 1], [two.yaml] holds [a: 2];
    [broken.yaml] holds a flow sequence that is never closed, which does
    not decode. *)
Definition files_world : World :=
  example.table_world
    {[ "one.yaml" := "a: 1"; "two.yaml" := "a: 2"; "broken.yaml" := "a: [1" ]} ∅
    {[ "a: 1" := VMap {[ "a" := VInt 1 ]}; "a: 2" := VMap {[ "a" := VInt 2 ]} ]}
    ∅ ∅.

(** Three extra files: [first.yaml] and [third.yaml] each refer to a
    secret; between them [broken.yaml] holds a flow sequence that is
    never closed, which does not decode. *)
Definition secret_files_world : World :=
  example.table_world
    {[ "first.yaml" := "k: s.enc"; "broken.yaml" := "a: [1";
       "third.yaml" := "k: t.enc" ]}
    {[ "s.enc" := "hunter2"; "t.enc" := "other" ]}
    {[ "k: s.enc" := VMap {[ "k" := VStr "s.enc" ]};
       "k: t.enc" := VMap {[ "k" := VStr "t.enc" ]};
       "hunter2" := VStr "hunter2"; "other" := VStr "other" ]}
    ∅ ∅.

(** A table with a key the pattern of [Expand] cannot match. *)
Definition mixed_env : env.Resolver :=
  {| env.env := {[ "FOO" := "bar"; "foo" := "lower" ]} |}.


End fixture.

(** * Properties *)

(** ** Strings *)

Section string_facts.

Lemma string_app_cons c (a b : string) : String c a ++ b = String c (a ++ b).
Proof. done. Qed.

Lemma string_app_nil_l (b : string) : "" ++ b = b.
Proof. done. Qed.

Lemma string_app_nil_r (a : string) : a ++ "" = a.
Proof.
  induction a as [|x a IH]; [done|]. by rewrite string_app_cons, IH.
Qed.

Lemma string_app_assoc (a b c : string) : (a ++ b) ++ c = a ++ (b ++ c).
Proof.
  induction a as [|x a IH]; [done|]. by rewrite !string_app_cons, IH.
Qed.

Lemma length_app (a b : string) :
  String.length (a ++ b) = String.length a + String.length b.
Proof. induction a as [|c a IH]; simpl; [done|]. by rewrite IH. Qed.

Lemma substring_0_length (s : string) : substring 0 (String.length s) s = s.
Proof. induction s as [|c s IH]; simpl; [done|]. by rewrite IH. Qed.

Lemma substring_0_length_app (a b : string) :
  substring 0 (String.length a) (a ++ b) = a.
Proof.
  induction a as [|c a IH]; simpl; [by destruct b|]. by rewrite IH.
Qed.

Lemma substring_length_app (a b : string) :
  substring (String.length a) (String.length b) (a ++ b) = b.
Proof.
  induction a as [|c a IH]; simpl; [apply substring_0_length|done].
Qed.

Lemma substring_split (n : nat) (s : string) :
  (n ≤ String.length s)%nat →
  substring 0 n s ++ substring n (String.length s - n) s = s.
Proof.
  revert n. induction s as [|c s IH]; intros [|n] Hn; simpl in *; try lia.
  - done.
  - by rewrite substring_0_length.
  - change (String c (substring 0 n s ++ substring n (String.length s - n) s)
            = String c s).
    rewrite IH; [done|lia].
Qed.

Lemma HasSuffix_app (a suffix : string) :
  strings.HasSuffix (a ++ suffix) suffix = true.
Proof.
  unfold strings.HasSuffix. rewrite length_app.
  apply andb_true_intro; split; [apply Nat.leb_le; lia|].
  replace (String.length a + String.length suffix - String.length suffix)
    with (String.length a) by lia.
  rewrite substring_length_app. apply String.eqb_refl.
Qed.

Lemma HasSuffix_inv (s suffix : string) :
  strings.HasSuffix s suffix = true →
  s = substring 0 (String.length s - String.length suffix) s ++ suffix.
Proof.
  unfold strings.HasSuffix. intros [Hlen Heq]%andb_prop.
  apply Nat.leb_le in Hlen. apply String.eqb_eq in Heq.
  rewrite <-(substring_split (String.length s - String.length suffix) s) at 1
    by lia.
  f_equal. rewrite <-Heq at 3. f_equal. lia.
Qed.

Lemma HasSuffix_true_iff (s suffix : string) :
  strings.HasSuffix s suffix = true ↔ ∃ a, s = a ++ suffix.
Proof.
  split; [intros H; eexists; by apply HasSuffix_inv|].
  intros [a ->]. apply HasSuffix_app.
Qed.

Lemma TrimSuffix_app (a suffix : string) :
  strings.TrimSuffix (a ++ suffix) suffix = a.
Proof.
  unfold strings.TrimSuffix. rewrite HasSuffix_app, length_app.
  replace (String.length a + String.length suffix - String.length suffix)
    with (String.length a) by lia.
  apply substring_0_length_app.
Qed.

Lemma TrimSuffix_inv (key suffix k : string) :
  strings.TrimSuffix key suffix = k →
  key = k ++ suffix ∨ (key = k ∧ strings.HasSuffix key suffix = false).
Proof.
  intros Htrim. destruct (strings.HasSuffix key suffix) eqn:Hsuf.
  - left. apply HasSuffix_true_iff in Hsuf as [a ->].
    by rewrite TrimSuffix_app in Htrim; subst.
  - right. unfold strings.TrimSuffix in Htrim. by rewrite Hsuf in Htrim.
Qed.

(** The order of [sort.Strings]. *)

Lemma leb_cons c1 s1 c2 s2 :
  String.leb (String c1 s1) (String c2 s2) = true ↔
  (N_of_ascii c1 < N_of_ascii c2)%N ∨ (c1 = c2 ∧ String.leb s1 s2 = true).
Proof.
  unfold String.leb. simpl. unfold Ascii.compare.
  destruct (N.compare_spec (N_of_ascii c1) (N_of_ascii c2)) as [Heq|Hlt|Hgt].
  - assert (c1 = c2) as ->.
    { rewrite <-(ascii_N_embedding c1), <-(ascii_N_embedding c2). by f_equal. }
    split; [tauto|]. intros [?|[_ ?]]; [lia|done].
  - tauto.
  - split; [done|]. intros [?|[-> _]]; lia.
Qed.

Lemma le_app_self (k s : string) : String.le (k ++ s) k → s = "".
Proof.
  unfold String.le. intros H%Is_true_true. revert H.
  induction k as [|c k IH]; simpl; [by destruct s|].
  intros [?|[_ ?]]%leb_cons; [lia|auto].
Qed.

End string_facts.

(** ** Version-control fetch: the retry with credentials *)

Section git_retry.
Context (w : World).

Lemma git_clone_log tempDir url :
  (source.git_clone w tempDir url).2 =
    if is_ok (git_PlainClone w tempDir url None) then [EvClone url None]
    else
      match source.basicAuthFromEnv w with
      | Some auth => [EvClone url None; EvClone url (Some auth)]
      | None => [EvClone url None]
      end.
Proof.
  unfold source.git_clone.
  destruct (git_PlainClone w tempDir url None); simpl; [done|].
  by destruct (source.basicAuthFromEnv w).
Qed.

Lemma gitSource_Fetch_log url subdir ref path :
  (source.gitSource_Fetch w url subdir ref path).2 =
    (source.git_clone w
       (filepath_Join w (os_TempDir w) ("tmpl-git-" ++ uuid_NewString w))
       (url_String w url)).2.
Proof.
  unfold source.gitSource_Fetch.
  destruct (source.git_clone w _ _) as [[repo|err] log]; simpl; [|done].
  destruct (source.git_checkout w repo ref); [done|].
  by destruct (os_ReadFile w _).
Qed.

(** C6, as the code has it: [gitSource.Fetch] first clones anonymously;
    when that clone fails it clones once more, with basic-auth
    credentials, as soon as at least one of [TMPL_GIT_USERNAME] and
    [TMPL_GIT_PASSWORD] is non-empty; when both are empty, or when the
    anonymous clone succeeds, the anonymous clone is the only clone
    made.  These are all the clones of a call. *)
Theorem gitSource_Fetch_retry url subdir ref path :
  let tempDir :=
    filepath_Join w (os_TempDir w) ("tmpl-git-" ++ uuid_NewString w) in
  let user := os_Getenv w "TMPL_GIT_USERNAME" in
  let pass := os_Getenv w "TMPL_GIT_PASSWORD" in
  let repo := url_String w url in
  (source.gitSource_Fetch w url subdir ref path).2 =
    if is_ok (git_PlainClone w tempDir repo None) then [EvClone repo None]
    else if String.eqb user "" && String.eqb pass "" then [EvClone repo None]
    else [EvClone repo None;
          EvClone repo (Some {| Username := user; Password := pass |})].
Proof.
  intros tempDir user pass repo.
  rewrite gitSource_Fetch_log, git_clone_log. fold tempDir repo.
  destruct (is_ok _); [done|].
  unfold source.basicAuthFromEnv. fold user pass.
  by destruct (_ && _).
Qed.

End git_retry.

(** C6, as stated, fails: with a user name and no password in the
    environment the failed anonymous clone is followed by a clone with
    credentials. *)
Lemma one_credential_triggers_retry :
  let w := example.user_only_world in
  os_Getenv w "TMPL_GIT_PASSWORD" = ""
  ∧ is_ok (git_PlainClone w "/tmp/tmpl-git-0000" "https://git.example.com" None)
    = false
  ∧ auth_clones
      (source.gitSource_Fetch w example.repo_url "values.yaml" ""
         "git+https://git.example.com/values.yaml").2
    = [ {| Username := "bot"; Password := "" |} ].
Proof. by vm_compute. Qed.

(** ** Environment expansion *)

Section expand.
Context (r : env.Resolver).

Lemma span_name_length s name rest :
  env.span_name s = (name, rest) → (String.length rest ≤ String.length s)%nat.
Proof.
  revert name rest. induction s as [|c s IH]; intros name rest; simpl.
  - by intros [= _ <-].
  - destruct (env.is_name_char c); [|by intros [= _ <-]].
    destruct (env.span_name s) as [n' r'] eqn:Hs. intros [= _ <-].
    specialize (IH _ _ eq_refl). lia.
Qed.

(** A match consumes at least the three bytes of [${}] and one of the
    name. *)
Lemma match_here_length s name rest :
  env.match_here s = Some (name, rest) →
  (String.length rest < String.length s)%nat.
Proof.
  destruct s as [|c1 [|c2 s]]; unfold env.match_here; try done.
  destruct (_ && _); [|done].
  destruct (env.span_name s) as [n' [|c3 r']] eqn:Hs; [done|].
  destruct (_ && _); [|done]. intros [= _ <-].
  apply span_name_length in Hs. simpl in *. lia.
Qed.

Lemma span_name_text s name rest :
  env.span_name s = (name, rest) → s = name ++ rest.
Proof.
  revert name rest. induction s as [|c s IH]; intros name rest; simpl.
  - by intros [= <- <-].
  - destruct (env.is_name_char c); [|by intros [= <- <-]].
    destruct (env.span_name s) as [n' r'] eqn:Hs. intros [= <- <-].
    by rewrite string_app_cons, <-(IH _ _ eq_refl).
Qed.

(** The text a match consumes is the placeholder of its group. *)
Lemma match_here_text s name rest :
  env.match_here s = Some (name, rest) → s = env.placeholder name ++ rest.
Proof.
  destruct s as [|c1 [|c2 s]]; unfold env.match_here; try done.
  destruct (Ascii.eqb_spec c1 "$") as [->|]; [|done].
  destruct (Ascii.eqb_spec c2 "{") as [->|]; [|done]. simpl.
  destruct (env.span_name s) as [n' [|c3 r']] eqn:Hs; [done|].
  destruct (negb _); [|done]. simpl.
  destruct (Ascii.eqb_spec c3 "}") as [->|]; [|done]. intros [= <- <-].
  apply span_name_text in Hs as ->. unfold env.placeholder.
  by rewrite !string_app_cons, string_app_nil_l, string_app_assoc.
Qed.

(** Any fuel from the length of the input on gives the same output. *)
Lemma replace_all_fuel repl fuel1 fuel2 s :
  (String.length s ≤ fuel1)%nat → (String.length s ≤ fuel2)%nat →
  env.replace_all repl fuel1 s = env.replace_all repl fuel2 s.
Proof.
  revert fuel2 s. induction fuel1 as [|fuel1 IH]; intros [|fuel2] s H1 H2;
    try (destruct s; simpl in *; [done|lia]).
  simpl. destruct (env.match_here s) as [[name rest]|] eqn:Hm.
  - apply match_here_length in Hm. f_equal. apply IH; lia.
  - destruct s as [|c s]; [done|]. simpl in *. f_equal. apply IH; lia.
Qed.

(** The equations of [Expand]. *)
Lemma Expand_empty : (env.Expand r "").1 = "".
Proof. done. Qed.

Lemma Expand_match s name rest :
  env.match_here s = Some (name, rest) →
  (env.Expand r s).1 =
    env.expand_match r (env.placeholder name) ++ (env.Expand r rest).1.
Proof.
  intros Hm. unfold env.Expand. simpl.
  pose proof (match_here_length _ _ _ Hm) as Hlen.
  destruct (String.length s) as [|n] eqn:Hs; [lia|].
  cbn [env.replace_all fst]. rewrite Hm. f_equal. apply replace_all_fuel; lia.
Qed.

Lemma Expand_byte c s :
  env.match_here (String c s) = None →
  (env.Expand r (String c s)).1 = String c (env.Expand r s).1.
Proof.
  intros Hm. unfold env.Expand. cbn [env.replace_all String.length fst].
  by rewrite Hm.
Qed.

(** [Expand] reports no error: its second result is always [nil]. *)
Lemma Expand_no_error data : (env.Expand r data).2 = None.
Proof. done. Qed.

(** Without a placeholder the input comes back as it is. *)
Lemma Expand_no_placeholder data :
  env.has_placeholder data = false → (env.Expand r data).1 = data.
Proof.
  induction data as [|c s IH]; [done|].
  intros Hp. simpl in Hp.
  destruct (env.match_here (String c s)) eqn:Hm; [done|].
  rewrite Expand_byte by done. by rewrite IH.
Qed.

(** Text that follows a [$] does not change what is matched before it. *)
Lemma span_name_app_dollar s x name rest :
  env.span_name s = (name, rest) →
  env.span_name (s ++ String "$" x) = (name, rest ++ String "$" x).
Proof.
  revert name rest. induction s as [|c s IH]; intros name rest; simpl.
  - by intros [= <- <-].
  - destruct (env.is_name_char c); [|by intros [= <- <-]].
    destruct (env.span_name s) as [n' r'] eqn:Hs. intros [= <- <-].
    by rewrite (IH _ _ eq_refl).
Qed.

Lemma match_here_app_dollar s x :
  s ≠ "" →
  env.match_here (s ++ String "$" x) =
    (λ '(name, rest), (name, rest ++ String "$" x)) <$> env.match_here s.
Proof.
  intros Hs. unfold env.match_here.
  destruct s as [|c1 [|c2 s]]; [done| |]; rewrite !string_app_cons.
  - rewrite string_app_nil_l. destruct (Ascii.eqb c1 "$"); [|done]. simpl.
    by destruct (env.span_name x) as [? [|? ?]].
  - simpl. destruct (_ && _); [|done].
    destruct (env.span_name s) as [name rest] eqn:Hspan.
    rewrite (span_name_app_dollar _ x _ _ Hspan).
    destruct rest as [|c3 rest]; simpl.
    + by rewrite andb_false_r.
    + by destruct (_ && _).
Qed.

Lemma Expand_app_dollar a x :
  (env.Expand r (a ++ String "$" x)).1 =
    (env.Expand r a).1 ++ (env.Expand r (String "$" x)).1.
Proof.
  remember (String.length a) as n eqn:Hn.
  revert a Hn. induction (lt_wf n) as [n _ IH]. intros a ->.
  destruct a as [|c a]; [done|].
  pose proof (match_here_app_dollar (String c a) x ltac:(done)) as Happ.
  destruct (env.match_here (String c a)) as [[name rest]|] eqn:Hm.
  - rewrite (Expand_match _ name (rest ++ String "$" x)) by done.
    rewrite (Expand_match _ _ _ Hm), string_app_assoc. f_equal.
    eapply IH; [|done]. by apply match_here_length in Hm.
  - rewrite string_app_cons in Happ |- *.
    rewrite !Expand_byte by done. rewrite string_app_cons. f_equal.
    eapply IH; [|done]. simpl. lia.
Qed.

Lemma span_name_valid name b :
  env.all_name_chars name = true →
  env.span_name (name ++ String "}" b) = (name, String "}" b).
Proof.
  induction name as [|c name IH]; simpl; [done|].
  intros [-> Hall]%andb_prop. by rewrite IH.
Qed.

Lemma match_here_placeholder name b :
  env.valid_name name = true →
  env.match_here (env.placeholder name ++ b) = Some (name, b).
Proof.
  unfold env.valid_name, env.placeholder, env.match_here.
  intros [Hne Hall]%andb_prop.
  rewrite !string_app_cons, string_app_nil_l, string_app_assoc.
  rewrite string_app_cons, string_app_nil_l. simpl.
  rewrite (span_name_valid _ _ Hall). by rewrite Hne.
Qed.

(** A placeholder is replaced on its own: the text before it and the
    text after it are expanded as if it were not there. *)
Lemma Expand_around_placeholder a name b :
  env.valid_name name = true →
  (env.Expand r (a ++ env.placeholder name ++ b)).1 =
    (env.Expand r a).1
    ++ env.expand_match r (env.placeholder name)
    ++ (env.Expand r b).1.
Proof.
  intros Hname.
  change (env.placeholder name ++ b)
    with (String "$" (String "{" (name ++ "}") ++ b)) at 1.
  rewrite Expand_app_dollar. f_equal.
  apply (Expand_match (env.placeholder name ++ b)).
  by apply match_here_placeholder.
Qed.

Lemma expand_match_absent name :
  env.valid_name name = true →
  env.env r !! name = None →
  env.expand_match r (env.placeholder name) = env.placeholder name.
Proof.
  intros Hname Habs. unfold env.expand_match.
  pose proof (match_here_placeholder name "" Hname) as Hm.
  rewrite string_app_nil_r in Hm. by rewrite Hm, Habs.
Qed.

(** C9: [Expand] never returns an error; an input in which the pattern
    matches nowhere is returned unchanged; and wherever the input holds
    a placeholder whose name is not in the table, the output holds that
    placeholder verbatim, between the expansions of the text before and
    after it.  With the empty table, [${FOO}] expands to [${FOO}]. *)
Theorem Expand_identity_outside_placeholders (data : bytes) :
  (env.Expand r data).2 = None
  ∧ (env.has_placeholder data = false → (env.Expand r data).1 = data)
  ∧ (∀ a name b,
       data = a ++ env.placeholder name ++ b →
       env.valid_name name = true →
       env.env r !! name = None →
       (env.Expand r data).1 =
         (env.Expand r a).1 ++ env.placeholder name ++ (env.Expand r b).1)
  ∧ env.Expand example.no_env "${FOO}" = ("${FOO}", None).
Proof.
  split_and!.
  - apply Expand_no_error.
  - apply Expand_no_placeholder.
  - intros a name b -> Hname Habs.
    by rewrite Expand_around_placeholder, expand_match_absent.
  - by vm_compute.
Qed.

End expand.

(** The three parts of C9 on [FOO=bar]: [a-${FOO}-${NOPE}-z] keeps the
    placeholder of the unknown [NOPE]. *)
Lemma Expand_identity_outside_placeholders_witness :
  env.has_placeholder "plain $text {}" = false
  ∧ (env.Expand example.foo_env "plain $text {}").1 = "plain $text {}"
  ∧ (env.Expand example.foo_env "a-${FOO}-${NOPE}-z").1
    = (env.Expand example.foo_env "a-${FOO}-").1 ++ "${NOPE}"
      ++ (env.Expand example.foo_env "-z").1
  ∧ (env.Expand example.foo_env "a-${FOO}-${NOPE}-z").1 = "a-bar-${NOPE}-z".
Proof.
  pose proof (Expand_identity_outside_placeholders example.foo_env
                "plain $text {}") as (_ & Hplain & _).
  pose proof (Expand_identity_outside_placeholders example.foo_env
                "a-${FOO}-${NOPE}-z") as (_ & _ & Hkeep & _).
  split; [reflexivity|]. split; [apply Hplain; reflexivity|].
  split; [|reflexivity].
  apply (Hkeep "a-${FOO}-" "NOPE" "-z"); reflexivity.
Defined.

(** ** Structural expansion *)

(** C8: [ExpandMap] does not reach a string inside a list that is itself
    an item of a list: with [FOO=bar], the tree [{k: [[${FOO}]]}] is left
    as it is, where expanding every string leaf gives [{k: [[bar]]}]. *)
Theorem ExpandMap_skips_list_in_list :
  let values : gmap string value :=
    {[ "k" := VList [VList [VStr "${FOO}"]] ]} in
  env.ExpandMap example.foo_env values = (values, None)
  ∧ env.expand_all example.foo_env (VMap values)
    = VMap {[ "k" := VList [VList [VStr "bar"]] ]}.
Proof. split; by vm_compute. Qed.

(** What [ExpandMap] does reach: strings bound to keys, at any depth of
    nested mappings, and string items of a list bound to a key. *)
Lemma ExpandMap_lookup r (values : gmap string value) key :
  (env.ExpandMap r values).1 !! key = env.expand_entry r <$> values !! key.
Proof. unfold env.ExpandMap. simpl. apply lookup_fmap. Qed.

(** ** Merge *)

Lemma merge_lookup (acc incoming : gmap string value) key :
  values.merge acc incoming !! key =
    match acc !! key, incoming !! key with
    | x, None => x
    | None, Some y => Some y
    | Some x, Some y => Some (values.merge_value x y)
    end.
Proof.
  unfold values.merge. rewrite lookup_union_with.
  by destruct (acc !! key), (incoming !! key).
Qed.

(** C3: deep merge with override.  At every key: a value of the incoming
    layer that is not a mapping (a scalar or a list) replaces what the
    accumulator has; two mappings merge recursively; a key of the incoming
    layer only is added; a key of the accumulator only is kept; a mapping
    meeting a non-mapping is replaced by the incoming value.  The two
    examples of the specification follow. *)
Theorem merge_deep_override (acc incoming : gmap string value) key :
  values.merge acc incoming !! key =
    match acc !! key, incoming !! key with
    | x, None => x
    | None, Some y => Some y
    | Some (VMap a), Some (VMap b) => Some (VMap (values.merge a b))
    | Some _, Some y => Some y
    end
  ∧ values.merge
      {[ "a" := VMap {[ "x" := VInt 1; "y" := VInt 2 ]} ]}
      {[ "a" := VMap {[ "y" := VInt 3; "z" := VInt 4 ]} ]}
    = {[ "a" := VMap {[ "x" := VInt 1; "y" := VInt 3; "z" := VInt 4 ]} ]}
  ∧ values.merge {[ "a" := VMap {[ "x" := VInt 1 ]} ]} {[ "a" := VStr "scalar" ]}
    = {[ "a" := VStr "scalar" ]}.
Proof.
  split_and!.
  - rewrite merge_lookup.
    by destruct (acc !! key) as [[]|], (incoming !! key) as [[]|].
  - by vm_compute.
  - by vm_compute.
Qed.

(** ** The loader *)

Section load.
Context (w : World) (l : values.Loader).

(** The first extra file that cannot be read ends the load with its
    error; nothing merged so far is returned. *)
Lemma load_extra_error baseValues file extraFiles err log :
  values.readValuesFile w l file = (Err err, log) →
  values.load_extra w l baseValues (file :: extraFiles) = (Err err, log).
Proof. intros Hread. simpl. unfold bind. by rewrite Hread. Qed.

Lemma load_extra_ok baseValues file extraFiles data log :
  values.readValuesFile w l file = (Ok data, log) →
  values.load_extra w l baseValues (file :: extraFiles) =
    let '(r, log') :=
      values.load_extra w l (values.merge baseValues data) extraFiles in
    (r, (log ++ log')%list).
Proof. intros Hread. simpl. unfold bind. by rewrite Hread. Qed.

(** A base file that does not exist reads as the empty tree. *)
Lemma Load_missing_base chartPath extraFiles err log :
  values.readValuesFile w l
    (filepath_Join w (if String.eqb chartPath "" then "." else chartPath)
       "values.yaml") = (Err err, log) →
  is_not_exist err = true →
  values.Load w l chartPath extraFiles =
    let '(r, log') := values.load_extra w l ∅ extraFiles in
    (r, (log ++ log')%list).
Proof. intros Hread Hne. unfold values.Load. by rewrite Hread, Hne. Qed.

(** Any other failure on the base file is fatal. *)
Lemma Load_base_error chartPath extraFiles err log :
  values.readValuesFile w l
    (filepath_Join w (if String.eqb chartPath "" then "." else chartPath)
       "values.yaml") = (Err err, log) →
  is_not_exist err = false →
  values.Load w l chartPath extraFiles = (Err err, log).
Proof. intros Hread Hne. unfold values.Load. by rewrite Hread, Hne. Qed.

(** A local file that cannot be read, a text that does not decode and a
    secret that does not decrypt each make [readValuesFile] fail. *)
Lemma readValuesFile_local_error path err :
  path ≠ "" →
  source.ParseScheme path = source.SchemeLocal →
  os_ReadFile w path = Err err →
  ∃ err', values.readValuesFile w l path = (Err err', []).
Proof.
  intros Hpath Hscheme Hread. unfold values.readValuesFile.
  apply String.eqb_neq in Hpath. rewrite Hpath, Hscheme, Hread. simpl.
  destruct (is_not_exist err); eauto.
Qed.

Lemma readValuesFile_decode_error path data err :
  path ≠ "" →
  source.ParseScheme path = source.SchemeLocal →
  os_ReadFile w path = Ok data →
  yaml_Unmarshal_map w (env.Expand (values.env l) data).1 = Err err →
  values.readValuesFile w l path
  = (Err (fmt_Errorf ("decode yaml " ++ path) err), []).
Proof.
  intros Hpath Hscheme Hread Hyaml. unfold values.readValuesFile.
  apply String.eqb_neq in Hpath. rewrite Hpath, Hscheme, Hread. simpl in *.
  by rewrite Hyaml.
Qed.

Lemma readValuesFile_decrypt_error path data decoded err log :
  path ≠ "" →
  source.ParseScheme path = source.SchemeLocal →
  os_ReadFile w path = Ok data →
  yaml_Unmarshal_map w (env.Expand (values.env l) data).1 = Ok decoded →
  values.decryptValues w (VMap decoded) (filepath_Dir w path) = (Err err, log) →
  values.readValuesFile w l path
  = (Err (fmt_Errorf ("decrypt secrets in " ++ path) err), log).
Proof.
  intros Hpath Hscheme Hread Hyaml Hdec. unfold values.readValuesFile.
  apply String.eqb_neq in Hpath. rewrite Hpath, Hscheme, Hread. simpl in *.
  by rewrite Hyaml, Hdec.
Qed.

(** On a remote source the error of [Fetch] is dropped: the file reads
    as whatever bytes came with the error. *)
Lemma readValuesFile_fetch_error_ignored path src data err log decoded result log' :
  path ≠ "" →
  source.ParseScheme path ≠ source.SchemeLocal →
  source.Factory_New w path = Ok src →
  source.Fetch w src = ((data, Some err), log) →
  yaml_Unmarshal_map w (env.Expand (values.env l) data).1 = Ok decoded →
  values.decryptValues w (VMap decoded) "" = (Ok (VMap result), log') →
  values.readValuesFile w l path = (Ok result, (log ++ log')%list).
Proof.
  intros Hpath Hscheme Hnew Hfetch Hyaml Hdec. unfold values.readValuesFile.
  apply String.eqb_neq in Hpath. apply String.eqb_neq in Hscheme.
  rewrite Hpath, Hscheme, Hnew, Hfetch. simpl in *.
  by rewrite Hyaml, Hdec.
Qed.

End load.

(** The example of the specification: no base [values.yaml], one extra
    file holding [{a: 1}]; the final tree is [{a: 1}]. *)
Lemma Load_missing_base_example :
  os_ReadFile example.extra_only_world "chart/values.yaml"
    = Err (fmt_Errorf "open chart/values.yaml" fs_ErrNotExist)
  ∧ values.Load example.extra_only_world example.loader "chart" ["extra.yaml"]
    = (Ok {[ "a" := VInt 1 ]}, []).
Proof. by vm_compute. Qed.

(** C7: a failed fetch of a remote extra file does not abort the load.
    The chart holds [{a: 1}]; the extra file [s3://bucket/extra.yaml] is
    not in the store, so its [Fetch] returns an error; [Load] returns the
    tree [{a: 1}] and no error. *)
Theorem Load_swallows_remote_fetch_error :
  let w := example.chart_world in
  source.Factory_New w "s3://bucket/extra.yaml"
    = Ok (source.s3Source "bucket" "extra.yaml")
  ∧ (source.Fetch w (source.s3Source "bucket" "extra.yaml")).1
    = ("", Some (errors_New "NoSuchKey"))
  ∧ values.Load w example.loader "chart" ["s3://bucket/extra.yaml"]
    = (Ok {[ "a" := VInt 1 ]}, []).
Proof. by vm_compute. Qed.

(** ** Induction on decoded documents *)

Lemma depth_entry (m : gmap string value) key x :
  m !! key = Some x → (depth x < depth (VMap m))%nat.
Proof.
  simpl. revert key x.
  induction m as [|i y m Hi Hfold IH] using map_first_key_ind; intros key x.
  - by rewrite lookup_empty.
  - rewrite map_fold_insert_first_key by done.
    destruct (decide (i = key)) as [->|Hne].
    + rewrite lookup_insert_eq. intros [= ->]. lia.
    + rewrite lookup_insert_ne by done. intros Hx%IH. lia.
Qed.

Lemma depth_item (l : list value) x : x ∈ l → (depth x < depth (VList l))%nat.
Proof.
  simpl. induction 1 as [x l|x y l _ IH]; simpl; lia.
Qed.

Lemma value_deep_ind (P : value → Prop) :
  P VNull → (∀ b, P (VBool b)) → (∀ z, P (VInt z)) → (∀ t, P (VOther t)) →
  (∀ s, P (VStr s)) →
  (∀ l, Forall P l → P (VList l)) →
  (∀ m, map_Forall (λ _, P) m → P (VMap m)) →
  ∀ v, P v.
Proof.
  intros Hnull Hbool Hint Hother Hstr Hlist Hmap v.
  remember (depth v) as n eqn:Hn. revert v Hn.
  induction (lt_wf n) as [n _ IH]. intros [| | | | |l|m] ->; auto.
  - apply Hlist, Forall_forall. intros x Hx.
    eapply IH; [by apply depth_item|done].
  - apply Hmap. intros key x Hx.
    eapply IH; [by eapply depth_entry|done].
Qed.

Open Scope list_scope.

(** ** Filling a map from a list of keys *)

Section fill.
Context {V : Type} (f : string → string) (g : string → V).

Lemma fill_lookup_other keys acc k :
  (∀ key, key ∈ keys → f key ≠ k) → fill f g keys acc !! k = acc !! k.
Proof.
  revert acc. induction keys as [|key keys IH]; intros acc Hne; [done|].
  unfold fill in *. simpl. rewrite IH by (intros; apply Hne; by right).
  apply lookup_insert_ne, Hne. by left.
Qed.

Lemma fill_lookup_last l1 key l2 acc :
  (∀ key', key' ∈ l2 → f key' ≠ f key) →
  fill f g (l1 ++ key :: l2) acc !! f key = Some (g key).
Proof.
  intros Hne. unfold fill. rewrite foldl_app. simpl.
  fold (fill f g l1 acc). fold (fill f g l2 (<[f key:=g key]> (fill f g l1 acc))).
  rewrite fill_lookup_other by done. apply lookup_insert_eq.
Qed.

End fill.

(** ** The sorted keys of a map *)

Section sorted_keys.
Context {V : Type} (m : gmap string V).

Lemma sorted_keys_elem key : key ∈ sorted_keys m ↔ is_Some (m !! key).
Proof.
  unfold sort_Strings. rewrite merge_sort_Permutation.
  rewrite list_elem_of_fmap. split.
  - intros [[k x] [-> Hx%elem_of_map_to_list]]. by exists x.
  - intros [x Hx]. exists (key, x). by rewrite elem_of_map_to_list.
Qed.

Lemma sorted_keys_NoDup : NoDup (sorted_keys m).
Proof.
  unfold sort_Strings. rewrite merge_sort_Permutation.
  apply NoDup_fst_map_to_list.
Qed.

Lemma sorted_keys_sorted : StronglySorted String.le (sorted_keys m).
Proof. apply StronglySorted_merge_sort; apply _. Qed.

(** Where a key stands in the sorted list, every later key is another
    key, and not smaller. *)
Lemma sorted_keys_split key :
  is_Some (m !! key) →
  ∃ l1 l2, sorted_keys m = l1 ++ key :: l2
           ∧ ∀ key', key' ∈ l2 → key' ≠ key ∧ String.le key key'.
Proof.
  intros Hin%sorted_keys_elem.
  apply list_elem_of_split in Hin as (l1 & l2 & Heq).
  exists l1, l2. split; [done|]. intros key' Hin'.
  pose proof sorted_keys_NoDup as Hnd. pose proof sorted_keys_sorted as Hs.
  rewrite Heq in Hnd, Hs.
  apply NoDup_app in Hnd as (_ & _ & [Hnot _]%NoDup_cons).
  apply StronglySorted_app_1_r, StronglySorted_inv in Hs as [_ Hall].
  rewrite Forall_forall in Hall. split; [|by apply Hall].
  intros ->. done.
Qed.

End sorted_keys.

(** ** The monad *)

Lemma bind_fst {A B} (c : M A) (k : A → M B) :
  (bind c k).1 = match c.1 with Ok a => (k a).1 | Err err => Err err end.
Proof. destruct c as [[a|err] log]; simpl; [|done]. by destruct (k a). Qed.

Lemma bind_snd {A B} (c : M A) (k : A → M B) :
  (bind c k).2 = c.2 ++ match c.1 with Ok a => (k a).2 | Err _ => [] end.
Proof.
  destruct c as [[a|err] log]; simpl; [|by rewrite app_nil_r].
  by destruct (k a).
Qed.

(** ** Tree decryption *)

Section decrypt.
Context (w : World) (baseDir : string).

Local Abbreviation decrypt := (λ x, values.decryptValues w x baseDir).
Local Abbreviation dec x := (values.decryptValues w x baseDir).
Local Abbreviation trim := (λ key, strings.TrimSuffix key ".enc").

Lemma sub_at_decrypt (m : gmap string value) key :
  sub_at (decrypt <$> m) key =
    match m !! key with Some x => dec x | None => ret VNull end.
Proof. unfold sub_at. rewrite lookup_fmap. by destruct (m !! key). Qed.

Lemma decryptValues_map (m : gmap string value) :
  values.decryptValues w (VMap m) baseDir =
    bind (values.decrypt_keys (decrypt <$> m) (sorted_keys m) ∅)
      (λ result, ret (VMap result)).
Proof. done. Qed.

Lemma decryptValues_list (l : list value) :
  values.decryptValues w (VList l) baseDir =
    bind (sequence (map decrypt l)) (λ result, ret (VList result)).
Proof. done. Qed.

Lemma decrypt_keys_cons sub key keys acc :
  values.decrypt_keys sub (key :: keys) acc =
    bind (sub_at sub key)
      (λ pv, values.decrypt_keys sub keys (<[trim key := pv]> acc)).
Proof. done. Qed.

Lemma decrypt_keys_all_ok sub keys acc :
  Forall (λ key, is_ok (sub_at sub key).1 = true) keys →
  (values.decrypt_keys sub keys acc).1 =
    Ok (fill trim (λ key, ok_value (sub_at sub key).1) keys acc).
Proof.
  revert acc. induction keys as [|key keys IH]; intros acc Hall; [done|].
  apply Forall_cons in Hall as [Hkey Hall].
  rewrite decrypt_keys_cons, bind_fst.
  destruct (sub_at sub key).1 as [pv|err] eqn:Hsub; [|done].
  rewrite IH by done. unfold fill. simpl. by rewrite Hsub.
Qed.

Lemma decrypt_keys_ok_inv sub keys acc out :
  (values.decrypt_keys sub keys acc).1 = Ok out →
  Forall (λ key, is_ok (sub_at sub key).1 = true) keys.
Proof.
  revert acc. induction keys as [|key keys IH]; intros acc; [by constructor|].
  rewrite decrypt_keys_cons, bind_fst.
  destruct (sub_at sub key).1 as [pv|err] eqn:Hsub; [|done].
  intros Hrest%IH. constructor; [by rewrite Hsub|done].
Qed.

Lemma decrypt_keys_err_inv sub keys acc err :
  (values.decrypt_keys sub keys acc).1 = Err err →
  ∃ key, key ∈ keys ∧ (sub_at sub key).1 = Err err.
Proof.
  revert acc. induction keys as [|key keys IH]; intros acc; [done|].
  rewrite decrypt_keys_cons, bind_fst.
  destruct (sub_at sub key).1 as [pv|err'] eqn:Hsub.
  - intros (key' & Hin & Herr)%IH. exists key'. split; [by right|done].
  - intros [= ->]. exists key. split; [by left|done].
Qed.

Lemma decryptValues_map_shape m out :
  (dec (VMap m)).1 = Ok out → ∃ mo, out = VMap mo.
Proof.
  rewrite decryptValues_map, bind_fst.
  destruct (values.decrypt_keys _ _ _).1; [|done]. intros [= <-]. eauto.
Qed.

(** The output of the mapping case, key by key: the binding of [k] comes
    from the entry [k.enc] when the input has one, else from the entry
    [k] when [k] is not marked. *)
Lemma decryptValues_map_ok m mo :
  (dec (VMap m)).1 = Ok (VMap mo) →
  map_Forall (λ _ x, is_ok (dec x).1 = true) m
  ∧ ∀ k, mo !! k =
      match m !! (k +:+ ".enc") with
      | Some v => Some (ok_value (dec v).1)
      | None =>
          if strings.HasSuffix k ".enc" then None
          else (λ v, ok_value (dec v).1) <$> m !! k
      end.
Proof.
  rewrite decryptValues_map, bind_fst.
  destruct (values.decrypt_keys _ _ _).1 as [r|] eqn:Hkeys; [|done].
  intros [= ->].
  pose proof (decrypt_keys_ok_inv _ _ _ _ Hkeys) as Hall.
  rewrite decrypt_keys_all_ok in Hkeys by done. injection Hkeys as <-.
  assert (∀ key x, m !! key = Some x → is_ok (dec x).1 = true) as Hok.
  { intros key x Hx. rewrite Forall_forall in Hall.
    specialize (Hall key). rewrite sub_at_decrypt, Hx in Hall.
    apply Hall, sorted_keys_elem. by rewrite Hx. }
  split; [done|]. intros k.
  set (g := λ key, ok_value (sub_at (decrypt <$> m) key).1).
  assert (∀ key x, m !! key = Some x → g key = ok_value (dec x).1) as Hg.
  { intros key x Hx. unfold g. by rewrite sub_at_decrypt, Hx. }
  destruct (m !! (k +:+ ".enc")) as [v|] eqn:Hmarked.
  - destruct (sorted_keys_split m (k +:+ ".enc")) as (l1 & l2 & -> & Hl2);
      [by rewrite Hmarked|].
    rewrite <-(Hg _ _ Hmarked). rewrite <-(TrimSuffix_app k ".enc") at 1.
    apply (fill_lookup_last trim g). intros key' [Hne Hle]%Hl2.
    rewrite TrimSuffix_app. intros [->| [-> _]]%TrimSuffix_inv; [done|].
    by apply le_app_self in Hle.
  - assert (∀ key, key ∈ sorted_keys m → trim key = k →
                   key = k ∧ strings.HasSuffix k ".enc" = false) as Hsrc.
    { intros key [x Hx]%sorted_keys_elem [->|[-> Hs]]%TrimSuffix_inv; [|done].
      by rewrite Hx in Hmarked. }
    destruct (strings.HasSuffix k ".enc") eqn:Hsuf.
    { rewrite fill_lookup_other; [done|].
      intros key Hin Htrim. by destruct (Hsrc key Hin Htrim). }
    destruct (m !! k) as [v|] eqn:Hk; simpl.
    + destruct (sorted_keys_split m k) as (l1 & l2 & Heq & Hl2);
        [by rewrite Hk|].
      rewrite <-(Hg _ _ Hk).
      assert (trim k = k) as Htrim.
      { unfold strings.TrimSuffix. by rewrite Hsuf. }
      rewrite Heq in Hsrc |- *.
      pose proof (fill_lookup_last trim g l1 k l2 ∅) as Hlast.
      simpl in Hlast. rewrite Htrim in Hlast. apply Hlast.
      intros key' Hin' Hk'. destruct (Hsrc key') as [-> _];
        [rewrite elem_of_app, elem_of_cons; auto|done|].
      by destruct (Hl2 _ Hin').
    + rewrite fill_lookup_other; [done|].
      intros key Hin Htrim. destruct (Hsrc key Hin Htrim) as [-> _].
      apply sorted_keys_elem in Hin as [x Hx]. by rewrite Hx in Hk.
Qed.

(** *** Where errors come from *)

Lemma sequence_cons {A} (c : M A) cs :
  sequence (c :: cs) = bind c (λ x, bind (sequence cs) (λ xs, ret (x :: xs))).
Proof. done. Qed.

Lemma sequence_err_inv {A} (cs : list (M A)) err :
  (sequence cs).1 = Err err → ∃ c, c ∈ cs ∧ c.1 = Err err.
Proof.
  induction cs as [|c cs IH]; [done|].
  rewrite sequence_cons, bind_fst. destruct c.1 as [x|err'] eqn:Hc.
  - rewrite bind_fst. destruct (sequence cs).1; [done|].
    intros [= ->]. destruct IH as (c' & Hin & Herr); [done|].
    exists c'. split; [by right|done].
  - intros [= ->]. exists c. split; [by left|done].
Qed.

Lemma sequence_ok_inv {A} (cs : list (M A)) xs :
  (sequence cs).1 = Ok xs → Forall2 (λ c x, c.1 = Ok x) cs xs.
Proof.
  revert xs. induction cs as [|c cs IH]; intros xs.
  - intros [= <-]. constructor.
  - rewrite sequence_cons, bind_fst. destruct c.1 as [x|] eqn:Hc; [|done].
    rewrite bind_fst. destruct (sequence cs).1 as [xs'|]; [|done].
    intros [= <-]. constructor; [done|by apply IH].
Qed.

Lemma enc_refs_entry (m : gmap string value) ref :
  ref ∈ enc_refs (VMap m) ↔ ∃ key x, m !! key = Some x ∧ ref ∈ enc_refs x.
Proof.
  simpl. rewrite list_elem_of_join. split.
  - intros (l & Hin & (key & -> & Hkey)%list_elem_of_fmap).
    rewrite lookup_fmap in Hin. destruct (m !! key) as [x|] eqn:Hx; simpl in Hin.
    + by exists key, x.
    + by apply elem_of_nil in Hin.
  - intros (key & x & Hx & Hin). exists (enc_refs x). split; [done|].
    apply list_elem_of_fmap. exists key. split.
    + by rewrite lookup_fmap, Hx.
    + apply sorted_keys_elem. by rewrite Hx.
Qed.

Lemma enc_refs_item (l : list value) ref :
  ref ∈ enc_refs (VList l) ↔ ∃ x, x ∈ l ∧ ref ∈ enc_refs x.
Proof.
  simpl. rewrite list_elem_of_join. split.
  - intros (l' & Hin & (x & -> & Hx)%list_elem_of_fmap). eauto.
  - intros (x & Hx & Hin). exists (enc_refs x). split; [done|].
    apply list_elem_of_fmap. eauto.
Qed.

(** The references are the string values ending in [.enc], wherever they
    are in the tree. *)
Lemma enc_refs_spec node ref :
  ref ∈ enc_refs node ↔
  string_leaf ref node ∧ strings.HasSuffix ref ".enc" = true.
Proof.
  revert ref. induction node as [| | | |s|l IH|m IH] using value_deep_ind;
    intros ref; try (split; [by intros ?%elem_of_nil|by intros [Hl _]; inversion Hl]).
  - simpl. destruct (strings.HasSuffix s ".enc") eqn:Hs.
    + rewrite list_elem_of_singleton. split; [intros ->; split; [constructor|done]|].
      intros [Hl _]. by inversion Hl.
    + split; [by intros ?%elem_of_nil|]. intros [Hl Hsuf]. inversion Hl; subst.
      congruence.
  - rewrite enc_refs_item. rewrite Forall_forall in IH. split.
    + intros (x & Hx & [Hl Hs]%IH); [|done]. split; [|done]. by econstructor.
    + intros [Hl Hs]. inversion Hl as [|? x Hx Hlx|]; subst.
      exists x. split; [done|]. by apply IH.
  - rewrite enc_refs_entry. split.
    + intros (key & x & Hx & Hin). apply (IH key x Hx) in Hin as [Hl Hs].
      split; [|done]. by econstructor.
    + intros [Hl Hs]. inversion Hl as [| |? key x Hx Hlx]; subst.
      exists key, x. split; [done|]. by apply (IH key x Hx).
Qed.

(** Every error of [decryptValues] is the failure of [DecryptFile] on a
    string value that ends in [.enc]. *)
Lemma decryptValues_err_inv node err :
  (dec node).1 = Err err →
  ∃ ref cause,
    ref ∈ enc_refs node
    ∧ sops_DecryptFile w (values.secret_path w ref baseDir) = Err cause
    ∧ err = fmt_Errorf ("decrypt " +:+ ref) cause.
Proof.
  revert err. induction node as [| | | |s|l IH|m IH] using value_deep_ind;
    intros err; try done.
  - simpl. destruct (strings.HasSuffix s ".enc") eqn:Hs; [|done]. simpl.
    unfold values.decryptValue.
    destruct (sops_DecryptFile w _) as [data|cause] eqn:Hsops; [done|].
    intros [= <-]. exists s, cause. split; [apply list_elem_of_singleton|]; done.
  - rewrite decryptValues_list, bind_fst.
    destruct (sequence _).1 as [|err'] eqn:Hseq; [done|]. intros [= ->].
    apply sequence_err_inv in Hseq as (c & (x & -> & Hx)%list_elem_of_fmap & Herr).
    rewrite Forall_forall in IH.
    destruct (IH x Hx _ Herr) as (ref & cause & Hin & Hsops & ->).
    exists ref, cause. split; [|done]. apply enc_refs_item. eauto.
  - rewrite decryptValues_map, bind_fst.
    destruct (values.decrypt_keys _ _ _).1 as [|err'] eqn:Hkeys; [done|].
    intros [= ->]. apply decrypt_keys_err_inv in Hkeys as (key & Hin & Herr).
    rewrite sub_at_decrypt in Herr. destruct (m !! key) as [x|] eqn:Hx; [|done].
    destruct (IH key x Hx _ Herr) as (ref & cause & Href & Hsops & ->).
    exists ref, cause. split; [|done]. apply enc_refs_entry. eauto.
Qed.

(** *** The calls to [DecryptFile] *)

Lemma logs_as_ret {A} (a : A) : logs_as (ret a) [].
Proof. by split. Qed.

Lemma logs_as_bind {A B} (c : M A) (k : A → M B) calls1 calls2 :
  logs_as c calls1 → (∀ a, logs_as (k a) calls2) →
  logs_as (bind c k) (calls1 ++ calls2).
Proof.
  intros [Hpre Hall] Hk. destruct c as [[a|err] log]; simpl in *.
  - rewrite <-Hall by done. destruct (Hk a) as [Hpre' Hall'].
    destruct (k a) as [r log']. simpl in *.
    split; [by apply prefix_app|]. intros Hr. by rewrite Hall'.
  - split; [by apply prefix_app_r|done].
Qed.

Lemma logs_as_bind_ret {A B} (c : M A) (f : A → B) calls :
  logs_as c calls → logs_as (bind c (λ a, ret (f a))) calls.
Proof.
  intros Hc. rewrite <-(app_nil_r calls).
  apply logs_as_bind; [done|]. intros a. apply logs_as_ret.
Qed.

Lemma fmap_join_fmap {A B C} (f : B → C) (g : A → list B) (l : list A) :
  f <$> mjoin (g <$> l) = mjoin ((λ x, f <$> g x) <$> l).
Proof.
  induction l as [|x l IH]; [done|]. rewrite !fmap_cons.
  change (f <$> (g x ++ mjoin (g <$> l)) =
          (f <$> g x) ++ mjoin ((λ x, f <$> g x) <$> l)).
  by rewrite fmap_app, IH.
Qed.

Lemma logs_as_sequence {A B} (run : A → M B) (calls : A → list event) l :
  (∀ x, x ∈ l → logs_as (run x) (calls x)) →
  logs_as (sequence (map run l)) (mjoin (calls <$> l)).
Proof.
  induction l as [|x l IH]; intros Hl; [apply logs_as_ret|].
  simpl map. rewrite sequence_cons. simpl.
  apply logs_as_bind; [apply Hl; by left|]. intros y.
  apply logs_as_bind_ret, IH. intros z Hz. apply Hl. by right.
Qed.

Lemma logs_as_decrypt_keys sub (calls : string → list event) keys acc :
  (∀ key, key ∈ keys → logs_as (sub_at sub key) (calls key)) →
  logs_as (values.decrypt_keys sub keys acc) (mjoin (calls <$> keys)).
Proof.
  revert acc. induction keys as [|key keys IH]; intros acc Hl;
    [apply logs_as_ret|].
  rewrite decrypt_keys_cons. simpl.
  apply logs_as_bind; [apply Hl; by left|]. intros pv.
  apply IH. intros z Hz. apply Hl. by right.
Qed.

Local Abbreviation call := (λ ref, EvDecryptFile (values.secret_path w ref baseDir)).

Lemma decryptValues_calls node : logs_as (dec node) (call <$> enc_refs node).
Proof.
  induction node as [| | | |s|l IH|m IH] using value_deep_ind;
    try apply logs_as_ret.
  - simpl. destruct (strings.HasSuffix s ".enc"); simpl; [|apply logs_as_ret].
    unfold values.decryptValue.
    by destruct (sops_DecryptFile w _).
  - rewrite decryptValues_list. apply logs_as_bind_ret.
    simpl enc_refs. rewrite fmap_join_fmap.
    apply (logs_as_sequence (λ x, dec x)). by apply Forall_forall.
  - rewrite decryptValues_map. apply logs_as_bind_ret.
    simpl enc_refs. rewrite fmap_join_fmap.
    apply logs_as_decrypt_keys. intros key _.
    rewrite sub_at_decrypt, lookup_fmap.
    destruct (m !! key) as [x|] eqn:Hx; simpl; [|apply logs_as_ret].
    by apply (IH key x).
Qed.

(** *** The keys of the output *)

Lemma keys_all_entry P (m : gmap string value) :
  keys_all P (VMap m) = true ↔
  ∀ key x, m !! key = Some x → P key = true ∧ keys_all P x = true.
Proof.
  simpl. induction m as [|i y m Hi Hfold IH] using map_first_key_ind.
  - split; [|done]. intros _ key x. by rewrite lookup_empty.
  - rewrite map_fold_insert_first_key by done.
    rewrite !andb_true_iff, IH. split.
    + intros [[HP Hy] Hm] key x.
      destruct (decide (i = key)) as [->|Hne].
      * rewrite lookup_insert_eq. by intros [= <-].
      * rewrite lookup_insert_ne by done. apply Hm.
    + intros Hall. split.
      * apply (Hall i y), lookup_insert_eq.
      * intros key x Hx. apply Hall. rewrite lookup_insert_ne; [done|].
        intros ->. by rewrite Hi in Hx.
Qed.

Lemma keys_all_item P (l : list value) :
  keys_all P (VList l) = true ↔ ∀ x, x ∈ l → keys_all P x = true.
Proof.
  simpl. rewrite forallb_forall. by setoid_rewrite list_elem_of_In.
Qed.

Lemma twice_marked k :
  strings.HasSuffix k ".enc" = true →
  strings.HasSuffix (k +:+ ".enc") ".enc.enc" = true.
Proof.
  intros [a ->]%HasSuffix_true_iff. apply HasSuffix_true_iff. exists a.
  by rewrite string_app_assoc.
Qed.

Lemma decryptValues_unmarked node out :
  keys_all not_twice_marked node = true →
  (∀ ref, ref ∈ enc_refs node →
     keys_all unmarked (ok_value (values.decryptValue w ref baseDir).1) = true) →
  (dec node).1 = Ok out →
  keys_all unmarked out = true.
Proof.
  revert out. induction node as [| | | |s|l IH|m IH] using value_deep_ind;
    intros out Hin Hpay; try by intros [= <-].
  - simpl. destruct (strings.HasSuffix s ".enc") eqn:Hs; [|by intros [= <-]].
    simpl. intros Hout. specialize (Hpay s). rewrite Hout in Hpay.
    apply Hpay. simpl. rewrite Hs. by left.
  - rewrite decryptValues_list, bind_fst.
    destruct (sequence _).1 as [xs|] eqn:Hseq; [|done]. intros [= <-].
    apply sequence_ok_inv in Hseq. apply keys_all_item. intros y Hy.
    change (map (λ x, dec x) l) with ((λ x, dec x) <$> l) in Hseq.
    apply Forall2_fmap_l in Hseq.
    apply list_elem_of_lookup in Hy as [i Hy].
    destruct (Forall2_lookup_r _ _ _ _ _ Hseq Hy) as (x & Hx & Hxy).
    apply list_elem_of_lookup_2 in Hx. rewrite Forall_forall in IH.
    apply (IH x Hx); [by eapply keys_all_item| |done].
    intros ref Href. apply Hpay, enc_refs_item. eauto.
  - intros Hout. destruct (decryptValues_map_shape _ _ Hout) as [mo ->].
    apply decryptValues_map_ok in Hout as [Hok Hlook].
    rewrite keys_all_entry in Hin. apply keys_all_entry. intros k y Hy.
    rewrite Hlook in Hy.
    assert (∀ key x, m !! key = Some x →
                     keys_all unmarked (ok_value (dec x).1) = true) as Hsub.
    { intros key x Hx. specialize (Hok key x Hx). simpl in Hok.
      destruct (dec x).1 as [y'|] eqn:Hdec; [|done].
      apply (IH key x Hx); [by eapply Hin| |done].
      intros ref Href. apply Hpay, enc_refs_entry. eauto. }
    destruct (m !! (k +:+ ".enc")) as [v|] eqn:Hmarked.
    + injection Hy as <-. split; [|by eapply Hsub].
      destruct (Hin _ _ Hmarked) as [Hnot _].
      unfold unmarked, not_twice_marked in *.
      destruct (strings.HasSuffix k ".enc") eqn:Hs; [|done].
      by rewrite twice_marked in Hnot.
    + unfold unmarked. destruct (strings.HasSuffix k ".enc"); [done|].
      destruct (m !! k) as [v|] eqn:Hk; [|done].
      injection Hy as <-. split; [done|by eapply Hsub].
Qed.

Lemma decryptValues_map_all_ok m :
  map_Forall (λ _ x, is_ok (dec x).1 = true) m →
  ∃ mo, (dec (VMap m)).1 = Ok (VMap mo).
Proof.
  intros Hok. rewrite decryptValues_map, bind_fst.
  rewrite decrypt_keys_all_ok; [by eexists|].
  apply Forall_forall. intros key [x Hx]%sorted_keys_elem.
  rewrite sub_at_decrypt, Hx. by eapply Hok.
Qed.

(** In the sorted keys [k] stands before [k.enc]. *)
Lemma sorted_keys_marked_later {V} (m : gmap string V) k :
  is_Some (m !! k) → is_Some (m !! (k +:+ ".enc")) →
  ∃ l1 l2 l3, sorted_keys m = l1 ++ k :: l2 ++ (k +:+ ".enc") :: l3.
Proof.
  intros Hk Hmarked.
  destruct (sorted_keys_split m _ Hmarked) as (l & l3 & Heq & Hl3).
  apply sorted_keys_elem in Hk. rewrite Heq in Hk.
  apply elem_of_app in Hk as [Hk|Hk].
  - apply list_elem_of_split in Hk as (l1 & l2 & ->).
    exists l1, l2, l3. by rewrite Heq, <-app_assoc.
  - apply elem_of_cons in Hk as [Hk|Hk].
    + apply (f_equal String.length) in Hk. rewrite length_app in Hk.
      simpl in Hk. lia.
    + destruct (Hl3 _ Hk) as [_ Hle]. by apply le_app_self in Hle.
Qed.

End decrypt.

(** ** Tree decryption: the statements *)

(** C1, as the code has it: a marked key [k.enc] whose value is a string
    that itself ends in [.enc] appears in the output as [k], bound to what
    [decryptValue] makes of the plaintext of the reference (the decoded
    document when the plaintext decodes as YAML, the trimmed text
    otherwise). *)
Theorem decryptValues_marked_reference (w : World) (m : gmap string value)
    (k ref baseDir : string) (out : value) :
  m !! (k +:+ ".enc") = Some (VStr ref) →
  strings.HasSuffix ref ".enc" = true →
  (values.decryptValues w (VMap m) baseDir).1 = Ok out →
  ∃ mo data,
    out = VMap mo
    ∧ sops_DecryptFile w (values.secret_path w ref baseDir) = Ok data
    ∧ mo !! k = Some (values.secret_value w data).
Proof.
  intros Hm Href Hout.
  destruct (decryptValues_map_shape _ _ _ _ Hout) as [mo ->].
  apply decryptValues_map_ok in Hout as [Hok Hlook].
  specialize (Hok _ _ Hm). specialize (Hlook k). rewrite Hm in Hlook.
  simpl in Hok, Hlook. rewrite Href in Hok, Hlook. simpl in Hok, Hlook.
  unfold values.decryptValue in Hok, Hlook.
  destruct (sops_DecryptFile w _) as [data|] eqn:Hsops; [|done].
  by exists mo, data.
Qed.

(** The example of the specification: [token.enc] with a reference whose
    plaintext is [secret123] gives [token: secret123], and no key
    [token.enc]. *)
Lemma decryptValues_marked_reference_witness :
  let w := example.token_world in
  let m : gmap string value := {[ "token.enc" := VStr "secrets/token.enc" ]} in
  (values.decryptValues w (VMap m) "").1 = Ok (VMap {[ "token" := VStr "secret123" ]})
  ∧ ∃ mo data,
      VMap {[ "token" := VStr "secret123" ]} = VMap mo
      ∧ sops_DecryptFile w (values.secret_path w "secrets/token.enc" "") = Ok data
      ∧ mo !! "token" = Some (values.secret_value w data).
Proof.
  intros w m. split; [by vm_compute|].
  apply (decryptValues_marked_reference w m "token" "secrets/token.enc" "");
    by vm_compute.
Defined.

(** C1, as stated, fails: the reference [vault/token] under the marked
    key [token.enc] decrypts to [secret123], but it does not end in
    [.enc]: [DecryptFile] is not called and the output binds [token] to
    the reference itself.  And where a reference is decrypted, the key is
    bound to the decoded plaintext: the plaintext [pass.enc: x] gives a
    mapping, not that text. *)
Lemma decryptValues_marked_key_not_decrypted :
  let w := example.vault_world in
  sops_DecryptFile w "vault/token" = Ok "secret123"
  ∧ values.decryptValues w (VMap {[ "token.enc" := VStr "vault/token" ]}) ""
    = (Ok (VMap {[ "token" := VStr "vault/token" ]}), [])
  ∧ sops_DecryptFile example.nested_world "db.enc" = Ok "pass.enc: x"
  ∧ (values.decryptValues example.nested_world
       (VMap {[ "db.enc" := VStr "db.enc" ]}) "").1
    = Ok (VMap {[ "db" := VMap {[ "pass.enc" := VStr "x" ]} ]}).
Proof. by vm_compute. Qed.

(** C4, as the code has it: a marked key [k.enc] whose value is not a
    string raises no error of its own.  The only errors of the step are
    failures of [DecryptFile] on string values ending in [.enc]; when the
    step succeeds the value is processed like any other and bound to [k],
    unchanged when it is a number, a boolean or null. *)
Theorem decryptValues_marked_non_string (w : World) (m : gmap string value)
    (k baseDir : string) (v : value) :
  m !! (k +:+ ".enc") = Some v →
  is_string v = false →
  (∀ err,
     (values.decryptValues w (VMap m) baseDir).1 = Err err →
     ∃ ref cause,
       ref ∈ enc_refs (VMap m)
       ∧ sops_DecryptFile w (values.secret_path w ref baseDir) = Err cause
       ∧ err = fmt_Errorf ("decrypt " +:+ ref) cause)
  ∧ (∀ out,
       (values.decryptValues w (VMap m) baseDir).1 = Ok out →
       ∃ mo pv,
         out = VMap mo
         ∧ (values.decryptValues w v baseDir).1 = Ok pv
         ∧ mo !! k = Some pv
         ∧ (is_scalar v = true → pv = v)).
Proof.
  intros Hm Hv. split; [intros err; apply decryptValues_err_inv|].
  intros out Hout.
  destruct (decryptValues_map_shape _ _ _ _ Hout) as [mo ->].
  apply decryptValues_map_ok in Hout as [Hok Hlook].
  specialize (Hok _ _ Hm). specialize (Hlook k). rewrite Hm in Hlook.
  simpl in Hok.
  destruct (values.decryptValues w v baseDir).1 as [pv|] eqn:Hdec; [|done].
  exists mo, pv. split_and!; try done.
  intros Hscalar. destruct v; try done; by injection Hdec.
Qed.

(** A number under a marked key passes through. *)
Lemma decryptValues_marked_non_string_witness :
  let w := example.token_world in
  let m : gmap string value := {[ "port.enc" := VInt 8080 ]} in
  ∃ mo pv,
    VMap {[ "port" := VInt 8080 ]} = VMap mo
    ∧ (values.decryptValues w (VInt 8080) "").1 = Ok pv
    ∧ mo !! "port" = Some pv
    ∧ (is_scalar (VInt 8080) = true → pv = VInt 8080).
Proof.
  intros w m.
  apply (decryptValues_marked_non_string w m "port" "" (VInt 8080));
    by vm_compute.
Defined.

(** C4, as stated, fails: the number under [port.enc] is not an error. *)
Lemma decryptValues_marked_number_passes :
  values.decryptValues example.token_world (VMap {[ "port.enc" := VInt 8080 ]}) ""
  = (Ok (VMap {[ "port" := VInt 8080 ]}), []).
Proof. by vm_compute. Qed.

(** C5, as the code has it: when no key of the input carries the marker
    twice ([.enc.enc]) and no decrypted document put into the tree has a
    marked key, no key of the output of a successful decryption ends in
    [.enc]. *)
Theorem decryptValues_output_unmarked (w : World) (node : value)
    (baseDir : string) (out : value) :
  keys_all not_twice_marked node = true →
  forallb
    (λ ref, keys_all unmarked (ok_value (values.decryptValue w ref baseDir).1))
    (enc_refs node) = true →
  (values.decryptValues w node baseDir).1 = Ok out →
  keys_all unmarked out = true.
Proof.
  intros Hin Hpay. apply decryptValues_unmarked; [done|].
  rewrite forallb_forall in Hpay. intros ref Href.
  by apply Hpay, list_elem_of_In.
Qed.

Lemma decryptValues_output_unmarked_witness :
  let node :=
    VMap {[ "token.enc" := VStr "secrets/token.enc";
            "db" := VMap {[ "port.enc" := VInt 5432 ]} ]} in
  (values.decryptValues example.token_world node "").1
  = Ok (VMap {[ "token" := VStr "secret123"; "db" := VMap {[ "port" := VInt 5432 ]} ]})
  ∧ keys_all unmarked
      (VMap {[ "token" := VStr "secret123"; "db" := VMap {[ "port" := VInt 5432 ]} ]})
    = true.
Proof.
  intros node. split; [by vm_compute|].
  apply (decryptValues_output_unmarked example.token_world node "");
    by vm_compute.
Defined.

(** C5, as stated, fails twice over: [TrimSuffix] removes one marker, so
    the key [a.enc.enc] comes out as [a.enc]; and a decrypted document is
    put into the tree as it is, marked keys included. *)
Lemma decryptValues_output_marked :
  (values.decryptValues example.token_world (VMap {[ "a.enc.enc" := VInt 1 ]}) "").1
  = Ok (VMap {[ "a.enc" := VInt 1 ]})
  ∧ keys_all unmarked (VMap {[ "a.enc" := VInt 1 ]}) = false
  ∧ (values.decryptValues example.nested_world (VMap {[ "db" := VStr "db.enc" ]}) "").1
    = Ok (VMap {[ "db" := VMap {[ "pass.enc" := VStr "x" ]} ]})
  ∧ keys_all unmarked (VMap {[ "db" := VMap {[ "pass.enc" := VStr "x" ]} ]}) = false.
Proof. by vm_compute. Qed.

(** C10, as the code has it: when a mapping has both [k] and [k.enc],
    where [k] itself is not marked, the keys are visited in sorted order,
    [k] before [k.enc]; when the decryption succeeds the output binds [k]
    to the value derived from [k.enc], and is the very output the mapping
    without the entry [k] gives: the value of [k] is dropped, and nothing
    reports it. *)
Theorem decryptValues_key_collision (w : World) (m : gmap string value)
    (k baseDir : string) (v1 v2 out : value) :
  strings.HasSuffix k ".enc" = false →
  m !! k = Some v1 →
  m !! (k +:+ ".enc") = Some v2 →
  (values.decryptValues w (VMap m) baseDir).1 = Ok out →
  (∃ l1 l2 l3, sorted_keys m = l1 ++ k :: l2 ++ (k +:+ ".enc") :: l3)
  ∧ ∃ mo pv2,
      out = VMap mo
      ∧ (values.decryptValues w v2 baseDir).1 = Ok pv2
      ∧ mo !! k = Some pv2
      ∧ (values.decryptValues w (VMap (delete k m)) baseDir).1 = Ok out.
Proof.
  intros Hk Hm1 Hm2 Hout.
  split; [by apply sorted_keys_marked_later|].
  destruct (decryptValues_map_shape _ _ _ _ Hout) as [mo ->].
  apply decryptValues_map_ok in Hout as [Hok Hlook].
  pose proof (Hok _ _ Hm2) as Hok2. simpl in Hok2.
  destruct (values.decryptValues w v2 baseDir).1 as [pv2|] eqn:Hdec; [|done].
  exists mo, pv2. split_and!; try done.
  { by rewrite Hlook, Hm2, Hdec. }
  destruct (decryptValues_map_all_ok w baseDir (delete k m)) as [mo' Hout'].
  { intros key x [_ Hx]%lookup_delete_Some. by eapply Hok. }
  rewrite Hout'. do 2 f_equal. apply map_eq. intros k'.
  apply decryptValues_map_ok in Hout' as [_ Hlook'].
  rewrite Hlook, Hlook'.
  assert (k' +:+ ".enc" ≠ k) as Hne.
  { intros <-. by rewrite HasSuffix_app in Hk. }
  rewrite (lookup_delete_ne m k (k' +:+ ".enc")) by done.
  destruct (m !! (k' +:+ ".enc")) eqn:Hmarked; [done|].
  destruct (strings.HasSuffix k' ".enc"); [done|].
  rewrite lookup_delete_ne; [done|]. intros ->. by rewrite Hm2 in Hmarked.
Qed.

Lemma decryptValues_key_collision_witness :
  let w := example.token_world in
  let m : gmap string value :=
    {[ "token" := VStr "old"; "token.enc" := VStr "secrets/token.enc" ]} in
  (values.decryptValues w (VMap m) "").1 = Ok (VMap {[ "token" := VStr "secret123" ]})
  ∧ (∃ l1 l2 l3, sorted_keys m = l1 ++ "token" :: l2 ++ "token.enc" :: l3)
  ∧ ∃ mo pv2,
      VMap {[ "token" := VStr "secret123" ]} = VMap mo
      ∧ (values.decryptValues w (VStr "secrets/token.enc") "").1 = Ok pv2
      ∧ mo !! "token" = Some pv2
      ∧ (values.decryptValues w (VMap (delete "token" m)) "").1
        = Ok (VMap {[ "token" := VStr "secret123" ]}).
Proof.
  intros w m. split; [by vm_compute|].
  apply (decryptValues_key_collision w m "token" "" (VStr "old")
           (VStr "secrets/token.enc"));
    by vm_compute.
Defined.

(** C10, as stated, fails when [k] is itself marked: from [a.enc] and
    [a.enc.enc] the output has the two keys [a] and [a.enc], and both
    values. *)
Lemma decryptValues_marked_keys_both_kept :
  values.decryptValues example.token_world
    (VMap {[ "a.enc" := VInt 1; "a.enc.enc" := VInt 2 ]}) ""
  = (Ok (VMap {[ "a" := VInt 1; "a.enc" := VInt 2 ]}), []).
Proof. by vm_compute. Qed.

(** * Further properties *)

(** ** Expansion: what is substituted, and from which names *)

Section expand_more.
Context (r : env.Resolver).

Lemma span_name_all s name rest :
  env.span_name s = (name, rest) → env.all_name_chars name = true.
Proof.
  revert name rest. induction s as [|c s IH]; intros name rest; simpl.
  - by intros [= <- _].
  - destruct (env.is_name_char c) eqn:Hc; [|by intros [= <- _]].
    destruct (env.span_name s) as [n' r'] eqn:Hs. intros [= <- _].
    simpl. by rewrite Hc, (IH _ _ eq_refl).
Qed.

Lemma match_here_valid s name rest :
  env.match_here s = Some (name, rest) → env.valid_name name = true.
Proof.
  destruct s as [|c1 [|c2 s]]; unfold env.match_here; try done.
  destruct (_ && _); [|done].
  destruct (env.span_name s) as [n' [|c3 r']] eqn:Hs; [done|].
  destruct (negb (String.eqb n' "")) eqn:Hne; [|done]. simpl.
  destruct (Ascii.eqb c3 "}"); [|done]. intros [= <- _].
  unfold env.valid_name. by rewrite Hne, (span_name_all _ _ _ Hs).
Qed.

Lemma expand_match_placeholder name :
  env.valid_name name = true →
  env.expand_match r (env.placeholder name) =
    default (env.placeholder name) (env.env r !! name).
Proof.
  intros Hname. unfold env.expand_match.
  pose proof (match_here_placeholder name "" Hname) as Hm.
  rewrite string_app_nil_r in Hm. rewrite Hm.
  by destruct (env.env r !! name).
Qed.

(** X1: a placeholder whose name is in the table is replaced by the
    value of the table, as it is: the value is not expanded again, and
    the text before and after is expanded on its own. *)
Theorem Expand_substitutes_once a name b val :
  env.valid_name name = true →
  env.env r !! name = Some val →
  (env.Expand r (a +:+ env.placeholder name +:+ b)).1 =
    (env.Expand r a).1 +:+ val +:+ (env.Expand r b).1.
Proof.
  intros Hname Hval.
  by rewrite Expand_around_placeholder, expand_match_placeholder, Hval.
Qed.

End expand_more.

(** X2: [Expand] reads the table only at names the pattern can capture
    (one or more of [A-Z0-9_]): two tables that agree on those names give
    the same expansion of every input, so an entry under any other key
    (lower case, say) is never used. *)
Theorem Expand_reads_valid_names_only (r r' : env.Resolver) (data : bytes) :
  (∀ name, env.valid_name name = true →
           env.env r !! name = env.env r' !! name) →
  env.Expand r data = env.Expand r' data.
Proof.
  intros Hagree. unfold env.Expand. f_equal.
  generalize (String.length data) as fuel. intros fuel. revert data.
  induction fuel as [|fuel IH]; intros data; [done|]. simpl.
  destruct (env.match_here data) as [[name rest]|] eqn:Hm.
  - apply match_here_valid in Hm.
    rewrite !expand_match_placeholder, Hagree, IH by done. done.
  - destruct data as [|c data]; [done|]. by rewrite IH.
Qed.

(** ** Structural expansion: where it is complete *)

Lemma map_fold_andb {V} (Q : string → V → bool) (m : gmap string V) :
  map_fold (λ k x acc, Q k x && acc) true m = true ↔
  ∀ k x, m !! k = Some x → Q k x = true.
Proof.
  induction m as [|i y m Hi Hfold IH] using map_first_key_ind.
  - split; [|done]. intros _ k x. by rewrite lookup_empty.
  - rewrite map_fold_insert_first_key by done.
    rewrite andb_true_iff, IH. split.
    + intros [Hy Hm] k x. destruct (decide (i = k)) as [->|Hne].
      * rewrite lookup_insert_eq. by intros [= <-].
      * rewrite lookup_insert_ne by done. apply Hm.
    + intros Hall. split; [apply Hall, lookup_insert_eq|].
      intros k x Hx. apply Hall. rewrite lookup_insert_ne; [done|].
      intros ->. by rewrite Hi in Hx.
Qed.

Lemma expand_entry_complete r v :
  no_list_in_list v = true → env.expand_entry r v = env.expand_all r v.
Proof.
  induction v as [| | | |s|l IH|m IH] using value_deep_ind; try done.
  - simpl. rewrite forallb_forall. intros Hl. f_equal.
    apply map_ext_in. intros item Hitem. specialize (Hl item Hitem).
    apply list_elem_of_In in Hitem. rewrite Forall_forall in IH.
    specialize (IH item Hitem). by destruct item; try done; rewrite <-IH.
  - simpl. rewrite map_fold_andb. intros Hm. f_equal.
    apply map_fmap_ext. intros k x Hx. by apply (IH k x Hx), (Hm k x).
Qed.

(** X3: on a tree in which no list is an item of a list, [ExpandMap]
    expands every string value, at any depth, and returns no error. *)
Theorem ExpandMap_complete_without_nested_lists r (values : gmap string value) :
  no_list_in_list (VMap values) = true →
  VMap (env.ExpandMap r values).1 = env.expand_all r (VMap values)
  ∧ (env.ExpandMap r values).2 = None.
Proof.
  intros Hv. split; [|done].
  by rewrite <-expand_entry_complete.
Qed.

(** ** Env files *)

Section env_files.
Context (h : env.Host).

Lemma IndexByte_app s c rest :
  strings_IndexByte s c = None →
  strings_IndexByte (s +:+ String c rest) c = Some (String.length s).
Proof.
  induction s as [|x s IH]; simpl.
  - by rewrite Ascii.eqb_refl.
  - destruct (Ascii.eqb x c); [done|].
    destruct (strings_IndexByte s c); [done|]. intros _. by rewrite IH.
Qed.

Lemma assign_all_lookup target entries key :
  assign_all target entries !! key =
    match last_binding key entries with
    | Some v => Some v
    | None => target !! key
    end.
Proof.
  unfold assign_all, last_binding.
  induction entries as [|[k v] entries IH] using rev_ind; [done|].
  rewrite foldl_app, filter_app. simpl.
  destruct (decide (k = key)) as [->|Hne].
  - rewrite lookup_insert_eq, filter_cons_True by done.
    by rewrite filter_nil, last_snoc.
  - rewrite lookup_insert_ne, filter_cons_False by done.
    by rewrite filter_nil, app_nil_r.
Qed.

Lemma assign_all_app target es1 es2 :
  assign_all target (es1 ++ es2) = assign_all (assign_all target es1) es2.
Proof. apply foldl_app. Qed.

(** One step of the loop, by the kind of line. *)
Lemma load_lines_blank target n raw lines :
  env.entry_text h raw = "" →
  env.load_lines h target n (raw :: lines) = env.load_lines h target (S n) lines.
Proof. intros Hraw. simpl. by rewrite Hraw. Qed.

Lemma line_ok_cases raw :
  (env.entry_text h raw = "" ∧ line_ok h raw = true ∧ line_entry h raw = None)
  ∨ (∃ key val,
       env.entry_text h raw ≠ ""
       ∧ strings_SplitN2 (env.entry_text h raw) "=" = [key; val]
       ∧ line_ok h raw = true
       ∧ line_entry h raw
         = Some (env.strings_TrimSpace h key, env.strings_TrimSpace h val))
  ∨ (env.entry_text h raw ≠ ""
     ∧ strings_SplitN2 (env.entry_text h raw) "=" = [env.entry_text h raw]
     ∧ line_ok h raw = false).
Proof.
  unfold line_ok, line_entry, strings_SplitN2.
  destruct (String.eqb_spec (env.entry_text h raw) "") as [Heq|Hne].
  - left. by rewrite Heq.
  - right. destruct (strings_IndexByte (env.entry_text h raw) "=") as [i|].
    + left. by eexists _, _.
    + by right.
Qed.

Lemma load_lines_ok target n lines :
  forallb (line_ok h) lines = true →
  env.load_lines h target n lines =
    (assign_all target (omap (line_entry h) lines), None).
Proof.
  revert target n. induction lines as [|raw lines IH]; intros target n; [done|].
  simpl forallb. intros [Hraw Hall]%andb_prop. simpl.
  destruct (line_ok_cases raw)
    as [(Ht & _ & He)|[(key & val & Ht & Hs & _ & He)|(_ & _ & Hno)]];
    [| |congruence].
  - rewrite Ht, He. simpl. by apply IH.
  - apply String.eqb_neq in Ht. rewrite Ht, Hs, He. simpl. by apply IH.
Qed.

Lemma load_lines_None target n lines :
  (env.load_lines h target n lines).2 = None →
  forallb (line_ok h) lines = true.
Proof.
  revert target n. induction lines as [|raw lines IH]; intros target n; [done|].
  simpl.
  destruct (line_ok_cases raw)
    as [(Ht & Hok & _)|[(key & val & Ht & Hs & Hok & _)|(Ht & Hs & _)]].
  - rewrite Ht, Hok. simpl. apply IH.
  - apply String.eqb_neq in Ht. rewrite Ht, Hs, Hok. apply IH.
  - apply String.eqb_neq in Ht. by rewrite Ht, Hs.
Qed.

Lemma load_lines_bad target n raw lines :
  line_ok h raw = false →
  env.load_lines h target n (raw :: lines) =
    (target, Some (env.InvalidEntry (env.entry_text h raw) (S n))).
Proof.
  intros Hbad. simpl.
  destruct (line_ok_cases raw)
    as [(_ & Hok & _)|[(key & val & _ & _ & Hok & _)|(Ht & Hs & _)]];
    [congruence|congruence|].
  apply String.eqb_neq in Ht. by rewrite Ht, Hs.
Qed.

Lemma load_lines_app target n pre post :
  forallb (line_ok h) pre = true →
  env.load_lines h target n (pre ++ post) =
    env.load_lines h (assign_all target (omap (line_entry h) pre))
      (n + length pre) post.
Proof.
  revert target n. induction pre as [|raw pre IH]; intros target n.
  - intros _. simpl. by rewrite Nat.add_0_r.
  - simpl forallb. intros [Hraw Hall]%andb_prop.
    rewrite <-app_comm_cons.
    replace (n + length (raw :: pre)) with (S n + length pre) by (simpl; lia).
    simpl env.load_lines.
    destruct (line_ok_cases raw)
      as [(Ht & _ & He)|[(key & val & Ht & Hs & _ & He)|(_ & _ & Hno)]];
      [| |congruence].
    + rewrite Ht. simpl omap. rewrite He. simpl. by apply IH.
    + apply String.eqb_neq in Ht. rewrite Ht, Hs. simpl omap. rewrite He.
      simpl. by apply IH.
Qed.

Lemma loadEnvFile_error_target target target' path :
  (env.loadEnvFile h target path).2 = (env.loadEnvFile h target' path).2.
Proof.
  unfold env.loadEnvFile.
  destruct (env.scan_file h path) as [[lines scanErr]|]; [|done].
  assert (∀ n t t', (env.load_lines h t n lines).2
                    = (env.load_lines h t' n lines).2) as Hind.
  { induction lines as [|raw lines IH]; intros n t t'; [done|]. simpl.
    destruct (String.eqb _ _); [apply IH|].
    destruct (strings_SplitN2 _ _) as [|? [|? [|? ?]]]; first [done|apply IH]. }
  specialize (Hind 0 target target').
  destruct (env.load_lines h target 0 lines) as [t1 [e1|]],
           (env.load_lines h target' 0 lines) as [t2 [e2|]];
    simpl in Hind; try done.
  by destruct scanErr.
Qed.

(** X4: [loadEnvFile] fails on the first line that, without its comment
    and surrounding white space, is not empty and has no [=]; the error
    names what is left of the line and its number, counting every line of
    the file from 1; the assignments of the lines before it have been
    made. *)
Theorem loadEnvFile_invalid_line target path pre raw post scanErr :
  env.scan_file h path = Ok (pre ++ raw :: post, scanErr) →
  forallb (line_ok h) pre = true →
  line_ok h raw = false →
  env.loadEnvFile h target path =
    (assign_all target (omap (line_entry h) pre),
     Some (env.InvalidEntry (env.entry_text h raw) (S (length pre)))).
Proof.
  intros Hscan Hpre Hraw. unfold env.loadEnvFile. rewrite Hscan.
  by rewrite load_lines_app, load_lines_bad.
Qed.

(** X5: when every line of the file is accepted and the scanner ends
    without error, [loadEnvFile] returns no error, and the map binds each
    key to the value of the last line of the file that assigns it; a key
    the file does not assign keeps the binding it had. *)
Theorem loadEnvFile_last_assignment target path lines :
  env.scan_file h path = Ok (lines, None) →
  forallb (line_ok h) lines = true →
  (env.loadEnvFile h target path).2 = None
  ∧ ∀ key,
      (env.loadEnvFile h target path).1 !! key =
        match last_binding key (omap (line_entry h) lines) with
        | Some val => Some val
        | None => target !! key
        end.
Proof.
  intros Hscan Hlines. unfold env.loadEnvFile.
  rewrite Hscan, load_lines_ok by done. split; [done|].
  intros key. apply assign_all_lookup.
Qed.

Lemma load_lines_ext target n lines1 lines2 :
  Forall2 (λ a b, env.entry_text h a = env.entry_text h b) lines1 lines2 →
  env.load_lines h target n lines1 = env.load_lines h target n lines2.
Proof.
  intros Hall. revert target n.
  induction Hall as [|a b l1 l2 Hab _ IH]; intros target n; [done|].
  simpl. rewrite Hab. destruct (String.eqb _ _); [apply IH|].
  destruct (strings_SplitN2 _ _) as [|? [|? [|? ?]]]; first [done|apply IH].
Qed.

(** X6: on a line, everything from the first [#] on is ignored:
    adding a comment to a line that has no [#] changes neither the map
    nor the error of the loop of [loadEnvFile]. *)
Theorem load_lines_ignores_comment target n pre line comment post :
  strings_IndexByte line "#" = None →
  env.load_lines h target n (pre ++ (line +:+ String "#" comment) :: post) =
    env.load_lines h target n (pre ++ line :: post).
Proof.
  intros Hline. apply load_lines_ext, Forall2_app; [by apply Forall_Forall2_diag, Forall_true|].
  constructor; [|by apply Forall_Forall2_diag, Forall_true].
  unfold env.entry_text.
  by rewrite IndexByte_app, substring_0_length_app, Hline.
Qed.

Lemma environ_map_entries environ :
  env.environ_map environ = assign_all ∅ (omap environ_entry environ).
Proof.
  unfold env.environ_map, assign_all. generalize (∅ : gmap string string).
  induction environ as [|kv environ IH]; intros acc; [done|].
  cbn [foldl omap list_omap]. rewrite IH. unfold environ_entry at 2.
  by destruct (strings_SplitN2 kv "=") as [|? [|? [|? ?]]].
Qed.

Lemma loadEnvFile_None target file :
  (env.loadEnvFile h target file).2 = None →
  (env.loadEnvFile h target file).1 =
    assign_all target (omap (line_entry h) (file_lines h file)).
Proof.
  unfold env.loadEnvFile, file_lines.
  destruct (env.scan_file h file) as [[lines scanErr]|]; [|done].
  destruct (env.load_lines h target 0 lines) as [t [e|]] eqn:Hload; [done|].
  pose proof (load_lines_None target 0 lines) as Hok. rewrite Hload in Hok.
  rewrite load_lines_ok in Hload by auto. injection Hload as <-.
  by destruct scanErr.
Qed.

Lemma load_files_entries envMap files envMap' :
  env.load_files h envMap files = inl envMap' →
  envMap' =
    assign_all envMap
      (mjoin ((λ file, omap (line_entry h) (file_lines h file)) <$> files)).
Proof.
  revert envMap. induction files as [|file files IH]; intros envMap.
  - by intros [= <-].
  - simpl env.load_files.
    pose proof (loadEnvFile_None envMap file) as Hfile.
    destruct (env.loadEnvFile h envMap file) as [t [e|]]; [done|].
    intros ->%IH. rewrite fmap_cons.
    change (mjoin (?x :: ?l)) with (x ++ mjoin l).
    rewrite assign_all_app. simpl in Hfile. by rewrite Hfile.
Qed.

(** X7: the table of a resolver binds a name to the value of its last
    assignment in this order: the entries of the process environment that
    have an [=] (cut at the first one), then the lines of the env files,
    in the order of the files.  So env files override the process
    environment, and later files earlier ones. *)
Theorem NewResolver_last_assignment_wins cfg resolver key :
  env.NewResolver h cfg = inl resolver →
  env.env resolver !! key =
    last_binding key
      (omap environ_entry (env.os_Environ h)
       ++ mjoin ((λ file, omap (line_entry h) (file_lines h file))
                   <$> env.Files cfg)).
Proof.
  unfold env.NewResolver.
  destruct (env.load_files h _ _) as [envMap|] eqn:Hfiles; [|done].
  intros [= <-]. apply load_files_entries in Hfiles as ->. simpl.
  rewrite environ_map_entries, <-assign_all_app, assign_all_lookup.
  by destruct (last_binding _ _).
Qed.

Lemma load_files_bad envMap pre file post err :
  forallb (file_loads h) pre = true →
  (env.loadEnvFile h ∅ file).2 = Some err →
  env.load_files h envMap (pre ++ file :: post)
  = inr (env.LoadEnvFileError file err).
Proof.
  revert envMap. induction pre as [|f pre IH]; intros envMap.
  - intros _ Hbad. simpl.
    pose proof (loadEnvFile_error_target envMap ∅ file) as Heq.
    rewrite Hbad in Heq.
    destruct (env.loadEnvFile h envMap file) as [t e]. simpl in Heq.
    by rewrite Heq.
  - simpl forallb. intros [Hf Hpre]%andb_prop Hbad. simpl.
    unfold file_loads in Hf.
    rewrite (loadEnvFile_error_target ∅ envMap) in Hf.
    destruct (env.loadEnvFile h envMap f) as [t [e|]]; [done|]. by apply IH.
Qed.

(** X8: [NewResolver] fails on the first env file [loadEnvFile]
    rejects, with the error of that file under its name; the files after
    it play no part. *)
Theorem NewResolver_first_bad_file pre file post err :
  forallb (file_loads h) pre = true →
  (env.loadEnvFile h ∅ file).2 = Some err →
  env.NewResolver h {| env.Files := pre ++ file :: post |}
  = inr (env.LoadEnvFileError file err).
Proof.
  intros Hpre Hbad. unfold env.NewResolver. simpl.
  by rewrite (load_files_bad _ _ _ _ err).
Qed.

End env_files.

(** ** Locations *)

Section locations.
Context (w : World).

Lemma HasPrefix_head s d p :
  strings.HasPrefix s (String d p) = true → ∃ s', s = String d s'.
Proof.
  unfold strings.HasPrefix. destruct s as [|c s]; [done|]. simpl.
  intros [_ Heq]%andb_prop.
  destruct (Ascii.eqb_spec c d) as [->|]; [eauto|done].
Qed.

Lemma Factory_New_by_scheme raw :
  source.Factory_New w raw =
    if String.eqb (source.ParseScheme raw) source.SchemeGit
    then source.newGitSource w raw
    else if String.eqb (source.ParseScheme raw) source.SchemeS3
    then source.newS3Source w raw
    else if String.eqb (source.ParseScheme raw) source.SchemeOCI
    then source.newOCISource raw
    else Err (errors_New ("unsupported source " +:+ raw)).
Proof.
  unfold source.Factory_New, source.ParseScheme.
  destruct (strings.HasPrefix raw "git+") eqn:Hgit,
           (strings.HasPrefix raw "s3://") eqn:Hs3,
           (strings.HasPrefix raw "oci://") eqn:Hoci; try done.
  all: try (apply HasPrefix_head in Hgit as [? ->]).
  all: try (apply HasPrefix_head in Hs3 as [? Hs3]).
  all: try (apply HasPrefix_head in Hoci as [? Hoci]).
  all: congruence.
Qed.

(** X9: [Factory.New] builds the source [ParseScheme] announces: though
    the two test the prefixes in different orders, a location classified
    as git, s3 or oci goes to the constructor of that kind, and
    [unsupported source] is returned exactly for the locations classified
    as local. *)
Theorem Factory_New_follows_ParseScheme raw :
  source.Factory_New w raw =
    if String.eqb (source.ParseScheme raw) source.SchemeGit
    then source.newGitSource w raw
    else if String.eqb (source.ParseScheme raw) source.SchemeS3
    then source.newS3Source w raw
    else if String.eqb (source.ParseScheme raw) source.SchemeOCI
    then source.newOCISource raw
    else Err (errors_New ("unsupported source " +:+ raw)).
Proof. apply Factory_New_by_scheme. Qed.

(** X10: the location [oci://<ref>] always gives the registry source of
    [<ref>], verbatim; the location [git+<url>] gives [<url>] to
    [url.Parse], and a source whose URL has lost path and fragment, the
    path (less a leading slash) being the file to read and the fragment
    the ref. *)
Theorem Factory_New_strips_prefix :
  (∀ ref, source.Factory_New w ("oci://" +:+ ref) = Ok (source.ociSource ref))
  ∧ (∀ u,
       source.Factory_New w ("git+" +:+ u) =
         match url_Parse w u with
         | Err err => Err (fmt_Errorf ("parse git source " +:+ "git+" +:+ u) err)
         | Ok parsed =>
             Ok (source.gitSource
                   {| url_Scheme := url_Scheme parsed; url_Host := url_Host parsed;
                      url_Path := ""; url_RawQuery := url_RawQuery parsed;
                      url_Fragment := "" |}
                   (strings.TrimPrefix (url_Path parsed) "/")
                   (url_Fragment parsed) ("git+" +:+ u))
         end).
Proof.
  assert (∀ p s, strings.HasPrefix (p +:+ s) p = true) as Hpre.
  { intros p s. unfold strings.HasPrefix. rewrite length_app.
    rewrite substring_0_length_app, String.eqb_refl.
    apply andb_true_intro. split; [apply Nat.leb_le; lia|done]. }
  assert (∀ p s, strings.TrimPrefix (p +:+ s) p = s) as Htrim.
  { intros p s. unfold strings.TrimPrefix. rewrite Hpre, length_app.
    replace (String.length p + String.length s - String.length p)
      with (String.length s) by lia.
    apply substring_length_app. }
  split.
  - intros ref. rewrite Factory_New_by_scheme.
    unfold source.ParseScheme, source.newOCISource.
    rewrite (Hpre "oci://" ref), (Htrim "oci://" ref).
    assert (strings.HasPrefix ("oci://" +:+ ref) "git+" = false) as -> by done.
    by assert (strings.HasPrefix ("oci://" +:+ ref) "s3://" = false) as -> by done.
  - intros u. rewrite Factory_New_by_scheme.
    unfold source.ParseScheme, source.newGitSource.
    by rewrite (Hpre "git+" u), (Htrim "git+" u).
Qed.

(** X11: [gitSource.Fetch] returns no data with an error. *)
Theorem gitSource_Fetch_error_without_data url subdir ref path data err :
  (source.gitSource_Fetch w url subdir ref path).1 = (data, Some err) →
  data = "".
Proof.
  unfold source.gitSource_Fetch.
  destruct (source.git_clone w _ _) as [[repo|e] log]; [|by intros [= <- _]].
  destruct (source.git_checkout w repo ref); [by intros [= <- _]|].
  destruct (os_ReadFile w _); [done|by intros [= <- _]].
Qed.

(** X12: when the anonymous clone fails, the error of [gitSource.Fetch]
    is that of the last clone attempted, under [clone git source <path>]:
    the error of the clone with credentials when one was made (the error
    of the anonymous clone is then not reported), that of the anonymous
    clone otherwise. *)
Theorem gitSource_Fetch_clone_error url subdir ref path anon last :
  let tempDir :=
    filepath_Join w (os_TempDir w) ("tmpl-git-" +:+ uuid_NewString w) in
  git_PlainClone w tempDir (url_String w url) None = Err anon →
  match source.basicAuthFromEnv w with
  | Some auth => git_PlainClone w tempDir (url_String w url) (Some auth)
  | None => Err anon
  end = Err last →
  (source.gitSource_Fetch w url subdir ref path).1 =
    ("", Some (fmt_Errorf ("clone git source " +:+ path) last)).
Proof.
  intros tempDir Hanon Hlast. unfold source.gitSource_Fetch, source.git_clone.
  fold tempDir. rewrite Hanon.
  destruct (source.basicAuthFromEnv w); simpl;
    [by rewrite Hlast|by injection Hlast as ->].
Qed.


End locations.

(** ** Tree decryption: outcome and shape *)

Section decrypt_more.
Context (w : World) (baseDir : string).

Local Abbreviation dec x := (values.decryptValues w x baseDir).
Local Abbreviation trim := (λ key, strings.TrimSuffix key ".enc").

Lemma runs_as_ret {A} (a : A) : runs_as w baseDir (ret a) [].
Proof. by split. Qed.

Lemma runs_as_bind {A B} (c : M A) (k : A → M B) refs1 refs2 :
  runs_as w baseDir c refs1 → (∀ a, runs_as w baseDir (k a) refs2) →
  runs_as w baseDir (bind c k) (refs1 ++ refs2).
Proof.
  unfold runs_as. intros Hc Hk. destruct c as [[a|err] log]; simpl in *.
  - destruct Hc as [Hall ->]. specialize (Hk a).
    destruct (k a) as [[b|err] log']; simpl in *.
    + destruct Hk as [Hall' ->]. split; [by apply Forall_app|].
      by rewrite fmap_app.
    + destruct Hk as (r1 & ref & r2 & cause & -> & Hr1 & Hsops & -> & ->).
      exists (refs1 ++ r1), ref, r2, cause.
      split_and!; try done; [by rewrite app_assoc|by apply Forall_app|].
      by rewrite <-fmap_app, app_assoc.
  - destruct Hc as (r1 & ref & r2 & cause & -> & Hr1 & Hsops & -> & ->).
    exists r1, ref, (r2 ++ refs2), cause.
    split_and!; try done. by rewrite <-app_assoc.
Qed.

Lemma runs_as_bind_ret {A B} (c : M A) (f : A → B) refs :
  runs_as w baseDir c refs → runs_as w baseDir (bind c (λ a, ret (f a))) refs.
Proof.
  intros Hc. rewrite <-(app_nil_r refs).
  apply runs_as_bind; [done|]. intros a. apply runs_as_ret.
Qed.

Lemma runs_as_sequence {A B} (run : A → M B) (refs : A → list string) l :
  (∀ x, x ∈ l → runs_as w baseDir (run x) (refs x)) →
  runs_as w baseDir (sequence (map run l)) (mjoin (refs <$> l)).
Proof.
  induction l as [|x l IH]; intros Hl; [apply runs_as_ret|].
  simpl map. rewrite sequence_cons. rewrite fmap_cons.
  change (mjoin (?y :: ?ys)) with (y ++ mjoin ys).
  apply runs_as_bind; [apply Hl; by left|]. intros y.
  apply runs_as_bind_ret, IH. intros z Hz. apply Hl. by right.
Qed.

Lemma runs_as_decrypt_keys sub (refs : string → list string) keys acc :
  (∀ key, key ∈ keys → runs_as w baseDir (sub_at sub key) (refs key)) →
  runs_as w baseDir (values.decrypt_keys sub keys acc) (mjoin (refs <$> keys)).
Proof.
  revert acc. induction keys as [|key keys IH]; intros acc Hl;
    [apply runs_as_ret|].
  rewrite decrypt_keys_cons, fmap_cons.
  change (mjoin (?y :: ?ys)) with (y ++ mjoin ys).
  apply runs_as_bind; [apply Hl; by left|]. intros pv.
  apply IH. intros z Hz. apply Hl. by right.
Qed.

Lemma decryptValues_runs node : runs_as w baseDir (dec node) (enc_refs node).
Proof.
  induction node as [| | | |s|l IH|m IH] using value_deep_ind;
    try apply runs_as_ret.
  - simpl. destruct (strings.HasSuffix s ".enc"); simpl; [|apply runs_as_ret].
    unfold values.decryptValue, runs_as.
    destruct (sops_DecryptFile w _) as [data|cause] eqn:Hsops; simpl.
    + split; [|done]. constructor; [by rewrite Hsops|constructor].
    + by exists [], s, [], cause.
  - rewrite decryptValues_list. apply runs_as_bind_ret.
    apply (runs_as_sequence (λ x, dec x)). by apply Forall_forall.
  - rewrite decryptValues_map. apply runs_as_bind_ret.
    apply runs_as_decrypt_keys. intros key _.
    rewrite sub_at_decrypt, lookup_fmap.
    destruct (m !! key) as [x|] eqn:Hx; simpl; [|apply runs_as_ret].
    by apply (IH key x).
Qed.

(** X13: [decryptValues] succeeds exactly when [DecryptFile] succeeds
    on every string value of the tree that ends in [.enc]. *)
Theorem decryptValues_succeeds_iff_refs_decrypt node :
  is_ok (dec node).1 =
    forallb
      (λ ref, is_ok (sops_DecryptFile w (values.secret_path w ref baseDir)))
      (enc_refs node).
Proof.
  pose proof (decryptValues_runs node) as Hrun. unfold runs_as in Hrun.
  destruct (dec node).1 as [out|err]; simpl.
  - destruct Hrun as [Hall _]. symmetry. apply forallb_forall.
    intros ref Href%list_elem_of_In. rewrite Forall_forall in Hall. by apply Hall.
  - destruct Hrun as (r1 & ref & r2 & cause & -> & _ & Hsops & _).
    symmetry. apply not_true_is_false. rewrite forallb_forall. intros Hall.
    specialize (Hall ref). rewrite Hsops in Hall. simpl in Hall.
    assert (false = true) by (apply Hall, in_app_iff; right; by left). done.
Qed.

(** X14: a failing [decryptValues] returns the error of the first
    reference, in the order of traversal, that [DecryptFile] rejects,
    under [decrypt <ref>]; [DecryptFile] has been called on the
    references up to that one, and on none after it. *)
Theorem decryptValues_stops_at_first_failure node err :
  (dec node).1 = Err err →
  ∃ refs1 ref refs2 cause,
    enc_refs node = refs1 ++ ref :: refs2
    ∧ forallb
        (λ ref, is_ok (sops_DecryptFile w (values.secret_path w ref baseDir)))
        refs1 = true
    ∧ sops_DecryptFile w (values.secret_path w ref baseDir) = Err cause
    ∧ err = fmt_Errorf ("decrypt " +:+ ref) cause
    ∧ (dec node).2 =
        (λ ref, EvDecryptFile (values.secret_path w ref baseDir))
          <$> (refs1 ++ [ref]).
Proof.
  intros Herr. pose proof (decryptValues_runs node) as Hrun.
  unfold runs_as in Hrun. rewrite Herr in Hrun.
  destruct Hrun as (r1 & ref & r2 & cause & Heq & Hall & Hsops & -> & Hlog).
  exists r1, ref, r2, cause. split_and!; try done.
  apply forallb_forall. intros x Hx%list_elem_of_In.
  rewrite Forall_forall in Hall. by apply Hall.
Qed.

Lemma sequence_all_ok {A B} (run : A → M B) (f : A → B) l :
  (∀ x, x ∈ l → run x = (Ok (f x), [])) →
  sequence (map run l) = (Ok (map f l), []).
Proof.
  induction l as [|x l IH]; intros Hl; [done|].
  simpl map. rewrite sequence_cons, (Hl x) by by left. simpl.
  rewrite IH; [done|]. intros z Hz. apply Hl. by right.
Qed.

(** X15: a tree with no string value ending in [.enc] and no key
    ending in [.enc] is returned as it is, and [DecryptFile] is not
    called. *)
Theorem decryptValues_identity_without_markers node :
  enc_refs node = [] →
  keys_all unmarked node = true →
  dec node = (Ok node, []).
Proof.
  induction node as [| | | |s|l IH|m IH] using value_deep_ind;
    intros Hrefs Hkeys; try done.
  - simpl in *. by destruct (strings.HasSuffix s ".enc").
  - rewrite decryptValues_list.
    rewrite (sequence_all_ok (λ x, dec x) id); [by rewrite map_id|].
    intros x Hx. rewrite Forall_forall in IH. apply (IH x Hx).
    + destruct (enc_refs x) as [|ref refs] eqn:Hx'; [done|].
      assert (ref ∈ enc_refs (VList l)) as Hin.
      { apply enc_refs_item. exists x. split; [done|]. rewrite Hx'. by left. }
      rewrite Hrefs in Hin. by apply elem_of_nil in Hin.
    + by eapply keys_all_item.
  - assert (∀ key x, m !! key = Some x → dec x = (Ok x, [])) as Hsub.
    { intros key x Hx. apply (IH key x Hx).
      - destruct (enc_refs x) as [|ref refs] eqn:Hx'; [done|].
        assert (ref ∈ enc_refs (VMap m)) as Hin.
        { apply enc_refs_entry. exists key, x. split; [done|]. rewrite Hx'. by left. }
        rewrite Hrefs in Hin. by apply elem_of_nil in Hin.
      - rewrite keys_all_entry in Hkeys. by eapply Hkeys. }
    destruct (decryptValues_map_all_ok w baseDir m) as [mo Hout].
    { intros key x Hx. simpl. by rewrite (Hsub key x Hx). }
    pose proof (decryptValues_calls w baseDir (VMap m)) as [Hpre _].
    rewrite Hrefs in Hpre. apply prefix_nil_inv in Hpre.
    rewrite (surjective_pairing (dec (VMap m))), Hout, Hpre. do 3 f_equal.
    apply map_eq. intros k.
    apply decryptValues_map_ok in Hout as [_ ->].
    rewrite keys_all_entry in Hkeys.
    destruct (m !! (k +:+ ".enc")) as [v|] eqn:Hmarked.
    { destruct (Hkeys _ _ Hmarked) as [Hun _]. unfold unmarked in Hun.
      by rewrite HasSuffix_app in Hun. }
    destruct (m !! k) as [v|] eqn:Hk.
    + destruct (Hkeys _ _ Hk) as [Hun _]. unfold unmarked in Hun.
      destruct (strings.HasSuffix k ".enc"); [done|]. simpl.
      by rewrite (Hsub k v Hk).
    + by destruct (strings.HasSuffix k ".enc").
Qed.

(** X16: a successful [decryptValues] keeps the shape of the tree: a
    list gives the list of the results of its items, in the same order
    and number; a mapping gives a mapping whose keys are those of the
    input, each with one [.enc] suffix removed. *)
Theorem decryptValues_keeps_shape :
  (∀ l out,
     (dec (VList l)).1 = Ok out →
     ∃ l', out = VList l' ∧ Forall2 (λ x y, (dec x).1 = Ok y) l l')
  ∧ (∀ m out,
       (dec (VMap m)).1 = Ok out →
       ∃ mo, out = VMap mo
             ∧ dom mo = set_map (λ key, strings.TrimSuffix key ".enc") (dom m)).
Proof.
  split.
  - intros l out. rewrite decryptValues_list, bind_fst.
    destruct (sequence _).1 as [xs|] eqn:Hseq; [|done]. intros [= <-].
    exists xs. split; [done|]. apply sequence_ok_inv in Hseq.
    change (map (λ x, dec x) l) with ((λ x, dec x) <$> l) in Hseq.
    by apply Forall2_fmap_l in Hseq.
  - intros m out Hout. destruct (decryptValues_map_shape _ _ _ _ Hout) as [mo ->].
    exists mo. split; [done|].
    apply decryptValues_map_ok in Hout as [_ Hlook].
    apply set_eq. intros k. rewrite elem_of_dom, elem_of_map, Hlook. split.
    + destruct (m !! (k +:+ ".enc")) as [v|] eqn:Hmarked.
      * intros _. exists (k +:+ ".enc"). split; [by rewrite TrimSuffix_app|].
        apply elem_of_dom. by rewrite Hmarked.
      * destruct (strings.HasSuffix k ".enc") eqn:Hs; [by intros [? ?]|].
        intros [v Hv]. destruct (m !! k) as [x|] eqn:Hk; [|done].
        exists k. split; [unfold strings.TrimSuffix; by rewrite Hs|].
        apply elem_of_dom. by rewrite Hk.
    + intros (key & Hk & [x Hx]%elem_of_dom). symmetry in Hk.
      apply TrimSuffix_inv in Hk as [->|[-> Hs]].
      * by rewrite Hx.
      * destruct (m !! (k +:+ ".enc")); [done|]. by rewrite Hs, Hx.
Qed.

End decrypt_more.

(** C2, as the code has it: in [decryptValues] a string is a secret
    reference when the string itself ends in [.enc]; its key plays no
    part.  The references of a tree are its string values ending in
    [.enc], under any key and at any index of a list.  [DecryptFile] is
    called on them in the order of traversal: on all of them when the
    decryption succeeds; otherwise on those up to the first one that does
    not decrypt, that one included, and on none of the later ones.  A
    string that does not end in [.enc] is returned as it is. *)
Theorem decryptValues_decides_by_value (w : World) (node : value) (baseDir : string) :
  let call := λ ref, EvDecryptFile (values.secret_path w ref baseDir) in
  let run := values.decryptValues w node baseDir in
  (∀ ref, ref ∈ enc_refs node ↔
          string_leaf ref node ∧ strings.HasSuffix ref ".enc" = true)
  ∧ (is_ok run.1 = true → run.2 = call <$> enc_refs node)
  ∧ (∀ err,
       run.1 = Err err →
       ∃ refs1 ref refs2 cause,
         enc_refs node = refs1 ++ ref :: refs2
         ∧ forallb
             (λ ref, is_ok (sops_DecryptFile w (values.secret_path w ref baseDir)))
             refs1 = true
         ∧ sops_DecryptFile w (values.secret_path w ref baseDir) = Err cause
         ∧ run.2 = call <$> (refs1 ++ [ref]))
  ∧ (∀ s, values.decryptValues w (VStr s) baseDir =
          if strings.HasSuffix s ".enc" then values.decryptValue w s baseDir
          else ret (VStr s)).
Proof.
  intros call run. pose proof (decryptValues_runs w baseDir node) as Hrun.
  unfold runs_as in Hrun. fold run in Hrun. split_and!.
  - intros ref. apply enc_refs_spec.
  - intros Hok. destruct run.1; [|done]. by destruct Hrun as [_ ->].
  - intros err Herr. rewrite Herr in Hrun.
    destruct Hrun as (r1 & ref & r2 & cause & Heq & Hall & Hsops & _ & Hlog).
    exists r1, ref, r2, cause. split_and!; try done.
    apply forallb_forall. intros x Hx%list_elem_of_In.
    rewrite Forall_forall in Hall. by apply Hall.
  - intros s. simpl. by destruct (strings.HasSuffix s ".enc").
Qed.

(** C2 on two trees.  In the first the string under the marked key
    [k.enc] does not end in [.enc] and is not decrypted, and the list item
    [secrets/token.enc] is.  In the second the reference [x.enc] does not
    decrypt: the calls stop there. *)
Lemma decryptValues_decides_by_value_witness :
  let w := example.token_world in
  let node :=
    VMap {[ "k.enc" := VStr "plain";
            "items" := VList [VStr "secrets/token.enc"] ]} in
  let failing := VList [VStr "x.enc"; VStr "secrets/token.enc"] in
  values.decryptValues w node ""
  = (Ok (VMap {[ "k" := VStr "plain"; "items" := VList [VStr "secret123"] ]}),
     [EvDecryptFile "secrets/token.enc"])
  ∧ (values.decryptValues w node "").2
    = (λ ref, EvDecryptFile (values.secret_path w ref "")) <$> enc_refs node
  ∧ ∃ refs1 ref refs2 cause,
      enc_refs failing = refs1 ++ ref :: refs2
      ∧ forallb
          (λ ref, is_ok (sops_DecryptFile w (values.secret_path w ref "")))
          refs1 = true
      ∧ sops_DecryptFile w (values.secret_path w ref "") = Err cause
      ∧ (values.decryptValues w failing "").2
        = (λ ref, EvDecryptFile (values.secret_path w ref "")) <$> (refs1 ++ [ref]).
Proof.
  intros w node failing.
  destruct (decryptValues_decides_by_value w node "") as (_ & Hok & _).
  destruct (decryptValues_decides_by_value w failing "") as (_ & _ & Hfail & _).
  split; [reflexivity|]. split; [apply Hok; reflexivity|].
  apply (Hfail (fmt_Errorf "decrypt x.enc" (errors_New "sops decrypt file x.enc"))).
  reflexivity.
Defined.

(** C2, as stated, fails: in the list [x.enc; y.enc], where [x.enc] does
    not decrypt, [y.enc] is a string value ending in [.enc] that is never
    passed to [DecryptFile]. *)
Lemma later_reference_not_decrypted :
  let w := example.token_world in
  let node := VList [VStr "x.enc"; VStr "y.enc"] in
  "y.enc" ∈ enc_refs node
  ∧ strings.HasSuffix "y.enc" ".enc" = true
  ∧ (values.decryptValues w node "").2 = [EvDecryptFile "x.enc"]
  ∧ EvDecryptFile (values.secret_path w "y.enc" "")
    ∉ (values.decryptValues w node "").2.
Proof.
  intros w node. split_and!; try reflexivity.
  - apply list_elem_of_In. simpl. auto.
  - replace (values.decryptValues w node "").2 with [EvDecryptFile "x.enc"]
      by reflexivity.
    intros Hin. apply list_elem_of_singleton in Hin. discriminate Hin.
Qed.

(** ** The loader: order, errors and paths *)

Section load_more.
Context (w : World) (l : values.Loader).


Lemma load_extra_all_ok baseValues files trees :
  Forall2 (λ file tree, (values.readValuesFile w l file).1 = Ok tree) files trees →
  (values.load_extra w l baseValues files).1 = Ok (foldl values.merge baseValues trees)
  ∧ (values.load_extra w l baseValues files).2 =
      mjoin ((λ file, (values.readValuesFile w l file).2) <$> files).
Proof.
  intros Hall. revert baseValues.
  induction Hall as [|file tree files trees Hfile _ IH]; intros baseValues;
    [done|].
  simpl values.load_extra. rewrite bind_fst, bind_snd, Hfile.
  destruct (IH (values.merge baseValues tree)) as [-> ->]. by split.
Qed.

Lemma load_extra_failing baseValues pre trees file post err :
  Forall2 (λ file tree, (values.readValuesFile w l file).1 = Ok tree) pre trees →
  (values.readValuesFile w l file).1 = Err err →
  (values.load_extra w l baseValues (pre ++ file :: post)).1 = Err err
  ∧ (values.load_extra w l baseValues (pre ++ file :: post)).2 =
      mjoin ((λ file, (values.readValuesFile w l file).2) <$> pre)
      ++ (values.readValuesFile w l file).2.
Proof.
  intros Hall Hbad. revert baseValues.
  induction Hall as [|f tree files trees Hfile _ IH]; intros baseValues.
  - simpl app. simpl values.load_extra.
    rewrite bind_fst, bind_snd, Hbad. simpl. by rewrite app_nil_r.
  - rewrite <-app_comm_cons. simpl values.load_extra.
    rewrite bind_fst, bind_snd, Hfile.
    destruct (IH (values.merge baseValues tree)) as [-> ->].
    split; [done|]. rewrite fmap_cons.
    change (mjoin (?y :: ?ys)) with (y ++ mjoin ys). by rewrite app_assoc.
Qed.

Lemma Load_from_base chartPath extraFiles baseValues :
  base_values w l chartPath = Some baseValues →
  values.Load w l chartPath extraFiles =
    ((values.load_extra w l baseValues extraFiles).1,
     (values.readValuesFile w l (base_path w chartPath)).2
     ++ (values.load_extra w l baseValues extraFiles).2).
Proof.
  unfold base_values, values.Load. fold (base_path w chartPath).
  destruct (values.readValuesFile w l (base_path w chartPath)) as [[b|err] log];
    simpl.
  - intros [= ->]. by destruct (values.load_extra _ _ _ _).
  - destruct (is_not_exist err); [|done]. intros [= <-]. simpl.
    by destruct (values.load_extra _ _ _ _).
Qed.

(** X18: when the base file is read, or missing, and every extra file
    is read, [Load] returns the left fold of the merge over the trees of
    the extra files, in the order given, from the tree of the base
    file. *)
Theorem Load_folds_extra_files chartPath extraFiles baseValues trees :
  base_values w l chartPath = Some baseValues →
  Forall2 (λ file tree, (values.readValuesFile w l file).1 = Ok tree)
    extraFiles trees →
  (values.Load w l chartPath extraFiles).1
  = Ok (foldl values.merge baseValues trees).
Proof.
  intros Hbase Hall. rewrite (Load_from_base _ _ _ Hbase). simpl.
  by apply load_extra_all_ok.
Qed.

(** X19: [Load] returns the error of the first extra file that cannot
    be read, as [readValuesFile] returned it.  The clones and the calls to
    [DecryptFile] it has made are those of the base file, of the files
    before and of that file: none is made for a later file.  Result and
    calls are those of the same load without the later files. *)
Theorem Load_stops_at_first_failing_file chartPath baseValues pre trees file post err :
  base_values w l chartPath = Some baseValues →
  Forall2 (λ file tree, (values.readValuesFile w l file).1 = Ok tree) pre trees →
  (values.readValuesFile w l file).1 = Err err →
  (values.Load w l chartPath (pre ++ file :: post)).1 = Err err
  ∧ (values.Load w l chartPath (pre ++ file :: post)).2 =
      (values.readValuesFile w l (base_path w chartPath)).2
      ++ mjoin ((λ file, (values.readValuesFile w l file).2) <$> pre)
      ++ (values.readValuesFile w l file).2
  ∧ values.Load w l chartPath (pre ++ file :: post)
    = values.Load w l chartPath (pre ++ [file]).
Proof.
  intros Hbase Hall Hbad. rewrite !(Load_from_base _ _ _ Hbase). simpl.
  destruct (load_extra_failing baseValues pre trees file post err) as [-> ->];
    [done..|].
  destruct (load_extra_failing baseValues pre trees file [] err) as [-> ->];
    done.
Qed.

(** X20: the tolerance of [Load] for its base file covers every
    failure that wraps [fs.ErrNotExist], whatever stage raised it: when
    the base file is read and decoded but the decryption of one of its
    secrets fails with such an error, [Load] goes on as if the base file
    were empty. *)
Theorem Load_drops_base_when_decryption_reports_not_exist
    chartPath extraFiles data decoded err :
  base_path w chartPath ≠ "" →
  source.ParseScheme (base_path w chartPath) = source.SchemeLocal →
  os_ReadFile w (base_path w chartPath) = Ok data →
  yaml_Unmarshal_map w (env.Expand (values.env l) data).1 = Ok decoded →
  (values.decryptValues w (VMap decoded)
     (filepath_Dir w (base_path w chartPath))).1 = Err err →
  is_not_exist err = true →
  (values.Load w l chartPath extraFiles).1
  = (values.load_extra w l ∅ extraFiles).1.
Proof.
  intros Hpath Hscheme Hread Hyaml Hdec Hne.
  rewrite (Load_from_base _ _ ∅); [done|]. unfold base_values.
  destruct (values.decryptValues w (VMap decoded) _) as [r log] eqn:Hd.
  simpl in Hdec. subst r.
  rewrite (readValuesFile_decrypt_error w l _ data decoded err log) by done.
  simpl. by rewrite Hne.
Qed.

End load_more.

(** ** The further properties on concrete inputs *)

(** [${FOO}] becomes [bar]; the [${FOO}] a value could hold would stay. *)
Lemma Expand_substitutes_once_witness :
  (env.Expand example.foo_env ("a=" +:+ env.placeholder "FOO" +:+ ";${NONE}")).1
  = (env.Expand example.foo_env "a=").1 +:+ "bar"
    +:+ (env.Expand example.foo_env ";${NONE}").1.
Proof.
  apply (Expand_substitutes_once example.foo_env "a=" "FOO" ";${NONE}" "bar");
    reflexivity.
Defined.

(** The entry under [foo] changes nothing. *)
Lemma Expand_reads_valid_names_only_witness :
  env.Expand example.foo_env "${FOO} ${foo}"
  = env.Expand fixture.mixed_env "${FOO} ${foo}".
Proof.
  apply (Expand_reads_valid_names_only example.foo_env fixture.mixed_env).
  intros name Hname. simpl.
  destruct (decide (name = "foo")) as [->|Hne]; [discriminate Hname|].
  destruct (decide (name = "FOO")) as [->|Hne']; [reflexivity|].
  rewrite lookup_insert_ne, !lookup_singleton_ne by done. reflexivity.
Defined.

Lemma ExpandMap_complete_without_nested_lists_witness :
  let values : gmap string value :=
    {[ "k" := VList [VStr "${FOO}"; VMap {[ "in" := VList [VStr "${FOO}"] ]}] ]} in
  VMap (env.ExpandMap example.foo_env values).1
  = env.expand_all example.foo_env (VMap values)
  ∧ (env.ExpandMap example.foo_env values).2 = None.
Proof.
  intros values.
  apply (ExpandMap_complete_without_nested_lists example.foo_env values).
  by vm_compute.
Defined.

(** [bad.env]: the second line, [oops], has no [=]. *)
Lemma loadEnvFile_invalid_line_witness :
  env.loadEnvFile fixture.host ∅ "bad.env"
  = (assign_all ∅ (omap (line_entry fixture.host) ["FOO=1"]),
     Some (env.InvalidEntry "oops" 2)).
Proof.
  apply (loadEnvFile_invalid_line fixture.host ∅ "bad.env" ["FOO=1"] "oops"
           ["BAR=2"] None);
    reflexivity.
Defined.

(** [a.env]: a comment, a blank line and two assignments. *)
Lemma loadEnvFile_last_assignment_witness :
  (env.loadEnvFile fixture.host {[ "FOO" := "process" ]} "a.env").2 = None
  ∧ ∀ key,
      (env.loadEnvFile fixture.host {[ "FOO" := "process" ]} "a.env").1 !! key =
        match last_binding key [("FOO", "file"); ("URL", "http://h/?a=b")] with
        | Some val => Some val
        | None => ({[ "FOO" := "process" ]} : gmap string string) !! key
        end.
Proof.
  apply (loadEnvFile_last_assignment fixture.host {[ "FOO" := "process" ]} "a.env"
           ["# settings"; ""; "FOO = file # trailing"; "URL=http://h/?a=b"]);
    reflexivity.
Defined.

Lemma load_lines_ignores_comment_witness :
  env.load_lines fixture.host ∅ 0 ["A=1"; "B=2" +:+ String "#" " two"; "C"]
  = env.load_lines fixture.host ∅ 0 ["A=1"; "B=2"; "C"].
Proof.
  apply (load_lines_ignores_comment fixture.host ∅ 0 ["A=1"] "B=2" " two" ["C"]).
  reflexivity.
Defined.

(** [FOO] is set by the process, by [a.env] and by [b.env]: the last
    wins; [HOME] comes from the process. *)
Lemma NewResolver_last_assignment_wins_witness :
  ∃ resolver,
    env.NewResolver fixture.host {| env.Files := ["a.env"; "b.env"] |}
    = inl resolver
    ∧ env.env resolver !! "FOO" = Some "last"
    ∧ env.env resolver !! "HOME" = Some "/root".
Proof.
  destruct (env.NewResolver fixture.host {| env.Files := ["a.env"; "b.env"] |})
    as [resolver|] eqn:Hnew; [|discriminate Hnew].
  exists resolver. split; [reflexivity|].
  split;
    rewrite (NewResolver_last_assignment_wins fixture.host _ resolver _ Hnew);
    reflexivity.
Defined.

Lemma NewResolver_first_bad_file_witness :
  env.NewResolver fixture.host {| env.Files := ["a.env"; "bad.env"; "b.env"] |}
  = inr (env.LoadEnvFileError "bad.env" (env.InvalidEntry "oops" 2)).
Proof.
  apply (NewResolver_first_bad_file fixture.host ["a.env"] "bad.env" ["b.env"]);
    reflexivity.
Defined.

Lemma gitSource_Fetch_error_without_data_witness :
  (source.gitSource_Fetch example.user_only_world example.repo_url "values.yaml"
     "main" "git+https://git.example.com/values.yaml#main").1.1 = "".
Proof.
  destruct (source.gitSource_Fetch example.user_only_world example.repo_url
              "values.yaml" "main" "git+https://git.example.com/values.yaml#main").1
    as [data err] eqn:Hfetch.
  apply (gitSource_Fetch_error_without_data example.user_only_world
           example.repo_url "values.yaml" "main"
           "git+https://git.example.com/values.yaml#main" data
           (fmt_Errorf "clone git source git+https://git.example.com/values.yaml#main"
              (errors_New "authentication required"))).
  rewrite Hfetch. f_equal.
  apply (f_equal snd) in Hfetch. simpl in Hfetch. rewrite <-Hfetch.
  reflexivity.
Defined.

Lemma gitSource_Fetch_clone_error_witness :
  (source.gitSource_Fetch example.user_only_world example.repo_url "values.yaml"
     "" "git+https://git.example.com/values.yaml").1
  = ("", Some (fmt_Errorf "clone git source git+https://git.example.com/values.yaml"
                 (errors_New "authentication required"))).
Proof.
  apply (gitSource_Fetch_clone_error example.user_only_world example.repo_url
           "values.yaml" "" "git+https://git.example.com/values.yaml"
           (errors_New "authentication required")
           (errors_New "authentication required"));
    reflexivity.
Defined.

(** The second reference, [x.enc], does not decrypt: the third is not
    tried. *)
Lemma decryptValues_stops_at_first_failure_witness :
  let node :=
    VList [VStr "secrets/token.enc"; VStr "x.enc"; VStr "secrets/token.enc"] in
  ∃ refs1 ref refs2 cause,
    enc_refs node = refs1 ++ ref :: refs2
    ∧ forallb
        (λ ref, is_ok (sops_DecryptFile example.token_world
                         (values.secret_path example.token_world ref "")))
        refs1 = true
    ∧ sops_DecryptFile example.token_world
        (values.secret_path example.token_world ref "") = Err cause
    ∧ fmt_Errorf "decrypt x.enc" (errors_New "sops decrypt file x.enc")
      = fmt_Errorf ("decrypt " +:+ ref) cause
    ∧ (values.decryptValues example.token_world node "").2 =
        (λ ref, EvDecryptFile (values.secret_path example.token_world ref ""))
          <$> (refs1 ++ [ref]).
Proof.
  intros node.
  apply (decryptValues_stops_at_first_failure example.token_world "" node).
  reflexivity.
Defined.

Lemma decryptValues_identity_without_markers_witness :
  let node :=
    VMap {[ "name" := VStr "web"; "ports" := VList [VInt 80; VInt 443];
            "env" := VMap {[ "enc" := VBool true ]} ]} in
  values.decryptValues example.token_world node "chart" = (Ok node, []).
Proof.
  intros node.
  apply (decryptValues_identity_without_markers example.token_world "chart" node);
    reflexivity.
Defined.

Lemma decryptValues_keeps_shape_witness :
  let w := example.token_world in
  let m : gmap string value :=
    {[ "token.enc" := VStr "secrets/token.enc"; "n" := VInt 1 ]} in
  ∃ mo,
    VMap {[ "token" := VStr "secret123"; "n" := VInt 1 ]} = VMap mo
    ∧ dom mo = set_map (λ key, strings.TrimSuffix key ".enc") (dom m).
Proof.
  intros w m.
  apply (proj2 (decryptValues_keeps_shape w "") m).
  by vm_compute.
Defined.


(** No base file; [one.yaml] then [two.yaml]: the later file decides [a]. *)
Lemma Load_folds_extra_files_witness :
  (values.Load fixture.files_world example.loader "" ["one.yaml"; "two.yaml"]).1
  = Ok (foldl values.merge ∅
          [ ({[ "a" := VInt 1 ]} : gmap string value); {[ "a" := VInt 2 ]} ])
  ∧ foldl values.merge ∅
      [ ({[ "a" := VInt 1 ]} : gmap string value); {[ "a" := VInt 2 ]} ]
    = {[ "a" := VInt 2 ]}.
Proof.
  split; [|reflexivity].
  apply (Load_folds_extra_files fixture.files_world example.loader ""
           ["one.yaml"; "two.yaml"] ∅);
    [reflexivity|].
  constructor; [reflexivity|]. constructor; [reflexivity|]. constructor.
Defined.

(** [broken.yaml] does not decode: the secret of [first.yaml] has been
    decrypted, that of [third.yaml] is not. *)
Lemma Load_stops_at_first_failing_file_witness :
  let w := fixture.secret_files_world in
  (values.Load w example.loader ""
     (["first.yaml"] ++ "broken.yaml" :: ["third.yaml"])).1
  = Err (fmt_Errorf "decode yaml broken.yaml" (errors_New "yaml: syntax error"))
  ∧ (values.Load w example.loader ""
       (["first.yaml"] ++ "broken.yaml" :: ["third.yaml"])).2
    = [] ++ [EvDecryptFile "s.enc"] ++ []
  ∧ values.Load w example.loader ""
      (["first.yaml"] ++ "broken.yaml" :: ["third.yaml"])
    = values.Load w example.loader "" (["first.yaml"] ++ ["broken.yaml"]).
Proof.
  intros w.
  apply (Load_stops_at_first_failing_file w example.loader ""
           ∅ ["first.yaml"] [ ({[ "k" := VStr "hunter2" ]} : gmap string value) ]
           "broken.yaml" ["third.yaml"]);
    [reflexivity| |reflexivity].
  constructor; [reflexivity|constructor].
Defined.

(** The chart's values name a secret the decryptor cannot find its
    program for: the values of the chart are dropped, and the load
    succeeds with those of [extra.yaml]. *)
Lemma Load_drops_base_when_decryption_reports_not_exist_witness :
  (values.Load fixture.lost_tool_world example.loader "chart" ["extra.yaml"]).1
  = Ok {[ "a" := VInt 1 ]}.
Proof.
  replace (Ok ({[ "a" := VInt 1 ]} : gmap string value))
    with (values.load_extra fixture.lost_tool_world example.loader ∅
            ["extra.yaml"]).1 by reflexivity.
  apply (Load_drops_base_when_decryption_reports_not_exist
           fixture.lost_tool_world example.loader "chart" ["extra.yaml"]
           "token: token.enc" {[ "token" := VStr "token.enc" ]}
           (fmt_Errorf "decrypt token.enc"
              (fmt_Errorf "fork/exec sops for chart/token.enc" fs_ErrNotExist)));
    try reflexivity.
  discriminate.
Defined.
